(* ===================================================================== *)
(*  knexa-fl : contextual matchmaking bandit (cpm_linucb.py) and the     *)
(*  deterministic split allocator (split_serializer.py).                 *)
(*                                                                       *)
(*  numpy's float32 arrays are idealised as matrices over the real       *)
(*  numbers: Stdlib's R carries the field structure MathComp's matrix    *)
(*  library needs, so that np.linalg.inv is MathComp's invmx.            *)
(*  Where a property depends on the rounding, the arithmetic of the      *)
(*  code is modelled as it runs: binary32 arrays and binary64 scalars    *)
(*  (modules Float32 and Float64, on the Stdlib's SpecFloat).            *)
(* ===================================================================== *)

From Stdlib Require Import Reals Lra Lia ZArith String DecimalString DecimalPos DecimalZ Epsilon FunctionalExtensionality.
From Stdlib Require SpecFloat.
From HB Require Import structures.
From mathcomp Require Import boot algebra.

Set Implicit Arguments.
Unset Strict Implicit.
Unset Printing Implicit Defensive.

Import GRing.Theory.

Delimit Scope R_scope with Re.
Delimit Scope Z_scope with Zs.
Local Open Scope ring_scope.

(* --------------------------------------------------------------------- *)
(*  The reals as a MathComp field                                        *)
(* --------------------------------------------------------------------- *)

Module RealField.

Definition eqr (x y : R) : bool := if Req_EM_T x y then true else false.

Lemma eqrP : Equality.axiom eqr.
Proof. by move=> x y; rewrite /eqr; case: Req_EM_T => h; constructor. Qed.

HB.instance Definition _ := hasDecEq.Build R eqrP.

Definition pickr (P : pred R) (_ : nat) : option R :=
  let x := epsilon (inhabits R0) (fun y => P y : Prop) in
  if P x then Some x else None.

Lemma pickr_correct (P : pred R) n x : pickr P n = Some x -> P x.
Proof. by rewrite /pickr; case: ifP => // px [<-]. Qed.

Lemma pickr_complete (P : pred R) : (exists x, P x) -> exists n, pickr P n.
Proof.
move=> exP; exists 0%N; rewrite /pickr.
by rewrite (epsilon_spec (inhabits R0) (fun y => P y : Prop) exP).
Qed.

Lemma pickr_ext (P Q : pred R) : P =1 Q -> pickr P =1 pickr Q.
Proof.
move=> eqPQ n; have -> : P = Q by apply: functional_extensionality.
by [].
Qed.

HB.instance Definition _ := hasChoice.Build R pickr_correct pickr_complete pickr_ext.

HB.instance Definition _ := GRing.isNmodule.Build R
  (fun x y z => esym (Rplus_assoc x y z)) Rplus_comm Rplus_0_l.

HB.instance Definition _ := GRing.Nmodule_isZmodule.Build R Rplus_opp_l.

Lemma R1_neq0 : R1 != 0 :> R.
Proof. by apply/eqP; apply: R1_neq_R0. Qed.

HB.instance Definition _ := GRing.Zmodule_isComNzRing.Build R
  (fun x y z => esym (Rmult_assoc x y z)) Rmult_comm Rmult_1_l
  Rmult_plus_distr_r R1_neq0.

Lemma RmulVf (x : R) : x != 0 -> Rmult (Rinv x) x = 1.
Proof. by move/eqP => x0; apply: Rinv_l. Qed.

HB.instance Definition _ := GRing.ComNzRing_isField.Build R RmulVf Rinv_0.

(* The ring operations on R are the Stdlib ones, by computation. *)
Lemma RaddE (x y : R) : x + y = Rplus x y.   Proof. by []. Qed.
Lemma RoppE (x : R) : - x = Ropp x.          Proof. by []. Qed.
Lemma RmulE (x y : R) : x * y = Rmult x y.   Proof. by []. Qed.
Lemma RinvE (x : R) : x^-1 = Rinv x.         Proof. by []. Qed.
Lemma R0E : 0%R = R0 :> R.                   Proof. by []. Qed.
Lemma R1E : 1%R = R1 :> R.                   Proof. by []. Qed.

End RealField.
Export RealField.

(* --------------------------------------------------------------------- *)
(*  Python exceptions and the result of a call                           *)
(* --------------------------------------------------------------------- *)

Inductive exn : Type :=
  | ValueError      (* numpy: operands could not be broadcast / matmul shape mismatch *)
  | TypeError       (* float() of an array that does not hold exactly one element *)
  | LinAlgError     (* numpy.linalg: singular matrix *)
  | RuntimeError.   (* raised by the split allocator *)

Inductive result (T : Type) : Type :=
  | Ok (x : T)
  | Raise (e : exn).
Arguments Ok {T} x.
Arguments Raise {T} e.

Definition bind {T U : Type} (r : result T) (f : T -> result U) : result U :=
  match r with Ok x => f x | Raise e => Raise e end.

Notation "r >>= f" := (bind r f) (at level 58, left associativity).

Fixpoint mapM {T U : Type} (f : T -> result U) (s : seq T) : result (seq U) :=
  match s with
  | [::] => Ok [::]
  | x :: s' => f x >>= fun y => mapM f s' >>= fun ys => Ok (y :: ys)
  end.

Definition is_ok {T : Type} (r : result T) : bool :=
  match r with Ok _ => true | Raise _ => false end.

(* --------------------------------------------------------------------- *)
(*  A small model of numpy's 2-d arrays with dynamic shapes              *)
(* --------------------------------------------------------------------- *)

Module Numpy.

(* A temporary array: its shape and its entries (read inside the shape). *)
Record ndarray : Type := Nd { nrows : nat; ncols : nat; ent : nat -> nat -> R }.

(* np.asarray(l, dtype=float32).reshape(-1, 1) *)
Definition column (l : seq R) : ndarray :=
  Nd (size l) 1 (fun i _ => nth 0 l i).

(* a.T *)
Definition transpose (a : ndarray) : ndarray :=
  Nd (ncols a) (nrows a) (fun i j => ent a j i).

(* a @ b : the inner dimensions must agree. *)
Definition matmul (a b : ndarray) : result ndarray :=
  if ncols a == nrows b
  then Ok (Nd (nrows a) (ncols b)
              (fun i j => \sum_(k < ncols a) ent a i k * ent b k j))
  else Raise ValueError.

(* Broadcasting of one axis: equal extents, or one of them is 1. *)
Definition broadcast_dim (m n : nat) : option nat :=
  if m == n then Some m
  else if m == 1%N then Some n
  else if n == 1%N then Some m
  else None.

(* Index into an axis of extent m that may have been stretched. *)
Definition bidx (m i : nat) : nat := if m == 1%N then 0%N else i.

(* a * b, elementwise with broadcasting. *)
Definition multiply (a b : ndarray) : result ndarray :=
  match broadcast_dim (nrows a) (nrows b), broadcast_dim (ncols a) (ncols b) with
  | Some p, Some q =>
      Ok (Nd p q (fun i j => ent a (bidx (nrows a) i) (bidx (ncols a) j)
                             * ent b (bidx (nrows b) i) (bidx (ncols b) j)))
  | _, _ => Raise ValueError
  end.

(* np.sqrt(a), elementwise. *)
Definition nd_sqrt (a : ndarray) : ndarray :=
  Nd (nrows a) (ncols a) (fun i j => sqrt (ent a i j)).

(* float(a): only an array of exactly one element converts. *)
Definition to_float (a : ndarray) : result R :=
  if (nrows a * ncols a)%N == 1%N then Ok (ent a 0%N 0%N) else Raise TypeError.

(* An array held in the bandit's state has a fixed shape; it is a matrix. *)
Definition of_mx {p q : nat} (M : 'M[R]_(p, q)) : ndarray :=
  Nd p q (fun i j =>
    match insub i, insub j with
    | Some i', Some j' => M i' j'
    | _, _ => 0
    end).

(* The operand of an in-place operation must broadcast to the target. *)
Definition broadcasts_to (m p : nat) : bool := (m == p) || (m == 1%N).

(* M += a : in place, so the shape of M is kept; a is stretched to it. *)
Definition iadd {p q : nat} (M : 'M[R]_(p, q)) (a : ndarray) : result 'M[R]_(p, q) :=
  if broadcasts_to (nrows a) p && broadcasts_to (ncols a) q
  then Ok (M + \matrix_(i < p, j < q) ent a (bidx (nrows a) i) (bidx (ncols a) j))
  else Raise ValueError.

(* np.linalg.inv(M): the exact inverse; a singular matrix is an error. *)
Definition linalg_inv {n : nat} (M : 'M[R]_n) : result 'M[R]_n :=
  if M \in unitmx then Ok (invmx M) else Raise LinAlgError.

(* np.linalg.solve(M, v): the exact solution of M x = v. *)
Definition linalg_solve {n : nat} (M : 'M[R]_n) (v : 'cV[R]_n) : result 'cV[R]_n :=
  if M \in unitmx then Ok (invmx M *m v) else Raise LinAlgError.

(* itertools.combinations(range(n), 2), in the order Python yields them. *)
Definition combinations2 (n : nat) : seq (nat * nat) :=
  [seq (i, j) | i <- iota 0 n, j <- iota i.+1 (n - i.+1)].

End Numpy.
Import Numpy.

(* --------------------------------------------------------------------- *)
(*  cpm_linucb.py                                                        *)
(* --------------------------------------------------------------------- *)

Record LinUCBConfig : Type :=
  { cfg_d : nat; cfg_lam : R; cfg_beta0 : R }.

(* self.d fixes the shapes of self.A and self.b and is never assigned
   after __init__: it indexes the type of the state. *)
Record LinUCB (d : nat) : Type :=
  { lam : R; beta0 : R; A : 'M[R]_d; b : 'cV[R]_d }.

(* LinUCB.__init__ *)
Definition init (config : LinUCBConfig) : LinUCB (cfg_d config) :=
  {| lam := cfg_lam config;
     beta0 := cfg_beta0 config;
     A := cfg_lam config *: 1%:M;
     b := 0 |}.

(* A candidate of choose_pairs: the tuple (ucb, i, j). *)
Definition candidate : Type := (R * nat * nat)%type.

Definition Rltb (x y : R) : bool := if Rlt_dec x y then true else false.

(* Python's < on the tuples (ucb, i, j): the first differing component decides. *)
Definition cand_lt (a b : candidate) : bool :=
  let '(u1, i1, j1) := a in
  let '(u2, i2, j2) := b in
  if u1 == u2 then (if i1 == i2 then (j1 < j2)%N else (i1 < i2)%N)
  else Rltb u1 u2.

(* The order list.sort(reverse=True) leaves between neighbours. *)
Definition cand_ge (a b : candidate) : bool := ~~ cand_lt a b.

(* One turn of the selection loop over (pairs, used). *)
Definition select_step (k_pairs : Z) (acc : seq (nat * nat) * seq nat) (c : candidate)
  : seq (nat * nat) * seq nat :=
  let '(pairs, used) := acc in
  let '(_, i, j) := c in
  if (i \notin used) && (j \notin used) && (Z.of_nat (size pairs) <? k_pairs)%Zs
  then (rcons pairs (i, j), i :: j :: used)
  else acc.

Definition select_pairs (k_pairs : Z) (candidates : seq candidate) : seq (nat * nat) :=
  (foldl (select_step k_pairs) ([::], [::]) candidates).1.

Section Bandit.

Variable d : nat.
Implicit Type self : LinUCB d.

(* LinUCB._theta *)
Definition _theta self : result 'cV[R]_d := linalg_solve (A self) (b self).

(* beta = self.beta0 / np.sqrt(max(1, rnd)) *)
Definition beta_of self (rnd : Z) : R := beta0 self / sqrt (IZR (Z.max 1 rnd)).

(* mu = float(theta.T @ x) *)
Definition mu_of (theta : 'cV[R]_d) (x : ndarray) : result R :=
  matmul (of_mx theta^T) x >>= to_float.

(* conf = float(np.sqrt(x.T @ A_inv @ x)) *)
Definition conf_of (A_inv : 'M[R]_d) (x : ndarray) : result R :=
  matmul (transpose x) (of_mx A_inv) >>= fun xA =>
  matmul xA x >>= fun q =>
  to_float (nd_sqrt q).

(* The body of the loop of choose_pairs for the pair (i, j). *)
Definition score_pair (beta : R) (A_inv : 'M[R]_d) (theta : 'cV[R]_d)
    (profiles : seq (seq R)) (ij : nat * nat) : result candidate :=
  let ctx := column (nth [::] profiles ij.1 ++ nth [::] profiles ij.2) in
  mu_of theta ctx >>= fun mu =>
  conf_of A_inv ctx >>= fun conf =>
  Ok (mu + beta * conf, ij.1, ij.2).

Definition candidates_of self (profiles : seq (seq R)) (rnd : Z) : result (seq candidate) :=
  let beta := beta_of self rnd in
  linalg_inv (A self) >>= fun A_inv =>
  _theta self >>= fun theta =>
  mapM (score_pair beta A_inv theta profiles) (combinations2 (size profiles)).

(* LinUCB.choose_pairs *)
Definition choose_pairs self (profiles : seq (seq R)) (k_pairs rnd : Z)
  : result (seq (nat * nat)) :=
  candidates_of self profiles rnd >>= fun candidates =>
  Ok (select_pairs k_pairs (sort cand_ge candidates)).

(* LinUCB.update: the new state, or the exception (the state is then untouched). *)
Definition update self (ctx_vec : seq R) (reward : R) : result (LinUCB d) :=
  let x := column ctx_vec in
  let r := Nd 1 1 (fun _ _ => reward) in
  matmul x (transpose x) >>= fun xxT =>
  iadd (A self) xxT >>= fun A' =>
  multiply r x >>= fun rx =>
  iadd (b self) rx >>= fun b' =>
  Ok {| lam := lam self; beta0 := beta0 self; A := A'; b := b' |}.

(* LinUCB.ucb_score *)
Definition ucb_score self (ctx_vec : seq R) (rnd : Z) : result R :=
  let beta := beta_of self rnd in
  let x := column ctx_vec in
  _theta self >>= fun theta =>
  linalg_inv (A self) >>= fun A_inv =>
  mu_of theta x >>= fun mu =>
  conf_of A_inv x >>= fun conf =>
  Ok (mu + beta * conf).

End Bandit.


(* A sequence of update calls, each on the state the previous one left. *)
Fixpoint run_updates (d : nat) (self : LinUCB d) (obs : seq (seq R * R))
  : result (LinUCB d) :=
  match obs with
  | [::] => Ok self
  | (ctx_vec, reward) :: obs' =>
      update self ctx_vec reward >>= fun self' => run_updates self' obs'
  end.

(* The states a bandit configured with a positive regularisation constant
   can be in: built by __init__, then changed by successful update calls. *)
Inductive reachable (d : nat) : LinUCB d -> Prop :=
  | reach_init (lam0 beta : R) :
      Rlt 0 lam0 ->
      reachable (init {| cfg_d := d; cfg_lam := lam0; cfg_beta0 := beta |})
  | reach_update (self self' : LinUCB d) (ctx_vec : seq R) (reward : R) :
      reachable self -> update self ctx_vec reward = Ok self' -> reachable self'.

(* --------------------------------------------------------------------- *)
(*  Vocabulary of the properties                                         *)
(* --------------------------------------------------------------------- *)

(* Present a goal over R with the Stdlib operations, for lra and nra. *)
Ltac stdR := rewrite ?RaddE ?RmulE ?RoppE ?RinvE ?R0E ?R1E.

(* The context vector as a column of the state's dimension. *)
Definition colv (d : nat) (l : seq R) : 'cV[R]_d := \col_(i < d) nth 0 l i.

(* x^T M x *)
Definition quad (d : nat) (M : 'M[R]_d) (v : 'cV[R]_d) : R := (v^T *m M *m v) 0 0.

Definition dot (d : nat) (x v : 'cV[R]_d) : R := (x^T *m v) 0 0.

Definition symmetric (d : nat) (M : 'M[R]_d) : Prop := M^T = M.

Definition posdef (d : nat) (M : 'M[R]_d) : Prop :=
  forall v : 'cV[R]_d, v != 0 -> Rlt 0 (quad M v).

(* A vector with at least one nonzero entry. *)
Definition nonzero (l : seq R) : bool := has (fun a : R => a != 0%R) l.

(* The Euclidean norm of a vector given as a list. *)
Definition norm2 (l : seq R) : R := sqrt (\sum_(a <- l) a * a).

(* The state after a successful update with a vector of length d. *)
Definition updated (d : nat) (self : LinUCB d) (l : seq R) (reward : R) : LinUCB d :=
  {| lam := lam self; beta0 := beta0 self;
     A := A self + colv d l *m (colv d l)^T;
     b := b self + reward *: colv d l |}.

(* The state after numpy has stretched a one-element vector over the state. *)
Definition stretched (d : nat) (self : LinUCB d) (x0 reward : R) : LinUCB d :=
  {| lam := lam self; beta0 := beta0 self;
     A := A self + const_mx (x0 * x0);
     b := b self + const_mx (reward * x0) |}.

(* The participant indices mentioned by a list of pairs. *)
Definition indices (pairs : seq (nat * nat)) : seq nat :=
  flatten [seq [:: p.1; p.2] | p <- pairs].

(* What the selection loop maintains about (pairs, used), for participants 0..n-1. *)
Definition sel_inv (n : nat) (k : Z) (acc : seq (nat * nat) * seq nat) : Prop :=
  [/\ perm_eq acc.2 (indices acc.1), uniq acc.2, all (fun u => u < n)%N acc.2
    & (Z.of_nat (size acc.1) <= Z.max 0 k)%Zs].

Definition in_range (n : nat) (c : candidate) : bool := (c.1.2 < c.2 < n)%N.

(* The three outcomes of comparing two reals, with the tests of cand_lt. *)
Variant compare_real (x y : R) : bool -> bool -> bool -> Type :=
  | CompareRealLt of Rlt x y : compare_real x y false true false
  | CompareRealGt of Rlt y x : compare_real x y false false true
  | CompareRealEq of x = y : compare_real x y true false false.

(* The participant pair of a candidate, and the order on pairs that Python's
   tuple comparison falls back to when the scores are equal. *)
Definition pair_of (c : candidate) : nat * nat := (c.1.2, c.2).

Definition pair_lt (p q : nat * nat) : bool :=
  if p.1 == q.1 then (p.2 < q.2)%N else (p.1 < q.1)%N.

(* Every pair of profiles concatenates to a vector of the state's dimension. *)
Definition profiles_fit (d : nat) (profiles : seq (seq R)) : bool :=
  all (fun ij => size (nth [::] profiles ij.1 ++ nth [::] profiles ij.2) == d)
      (combinations2 (size profiles)).

(* The tie-breaking rule as the specification words it: a stable sort on the
   score alone, descending, so that equal scores keep the enumeration order. *)
Definition ucb_ge (a b : candidate) : bool := ~~ Rltb a.1.1 b.1.1.

Definition choose_pairs_stable (d : nat) (self : LinUCB d) (profiles : seq (seq R))
    (k_pairs rnd : Z) : result (seq (nat * nat)) :=
  candidates_of self profiles rnd >>= fun candidates =>
  Ok (select_pairs k_pairs (sort ucb_ge candidates)).

(* The invariant of the design matrix. *)
Definition spd_state (d : nat) (self : LinUCB d) : Prop :=
  [/\ symmetric (A self), posdef (A self) & Rlt 0 (\det (A self))].

(* The candidate of a pair whose concatenated context has the right length:
   mu + beta * conf, with theta and A_inv the exact solutions. *)
Definition scored (d : nat) (self : LinUCB d) (profiles : seq (seq R)) (rnd : Z)
    (ij : nat * nat) : candidate :=
  let x := colv d (nth [::] profiles ij.1 ++ nth [::] profiles ij.2) in
  (((invmx (A self) *m b self)^T *m x) 0 0
     + beta_of self rnd * sqrt (quad (invmx (A self)) x), ij.1, ij.2).

(* A bandit of dimension 2 with lambda = 1 and beta0 = 1. *)
Definition cfg2 : LinUCBConfig := {| cfg_d := 2; cfg_lam := 1; cfg_beta0 := 1 |}.

(* Three participants with one feature each. *)
Definition contexts_scenario : seq (seq R) :=
  [:: [:: 1%Re]; [:: 0%Re]; [:: (1 / 2)%Re]].

Definition contexts_tied : seq (seq R) :=
  [:: [:: 1%Re]; [:: 1%Re]; [:: 1%Re]].

(* --------------------------------------------------------------------- *)
(*  split_serializer.py                                                  *)
(* --------------------------------------------------------------------- *)

HB.instance Definition _ := hasDecEq.Build string String.eqb_spec.

Module SplitSerializer.

(* The values of a parsed JSON object that _get_item_id tells apart. *)
Inductive json : Type :=
  | JString (s : string)
  | JInt (z : Z)
  | JBool (flag : bool)     (* a Python bool is an int *)
  | JOther.

Definition json_object : Type := seq (string * json).

(* obj.get(k) *)
Definition obj_get (o : json_object) (k : string) : option json :=
  if [seq kv.2 | kv <- o & kv.1 == k] is v :: _ then Some v else None.

(* str(v) for an int *)
Definition str_of_int (z : Z) : string := NilZero.string_of_int (Z.to_int z).

(* f"{prefix}_{v}" *)
Definition prefixed (prefix v : string) : string :=
  String.append prefix (String.append "_"%string v).

(* The loop of _get_item_id over the preferred keys. *)
Fixpoint first_id (o : json_object) (prefix : string) (keys : seq string) : option string :=
  match keys with
  | [::] => None
  | k :: keys' =>
      match obj_get o k with
      | Some (JString v) => if v is EmptyString then first_id o prefix keys' else Some v
      | Some (JInt v) => Some (prefixed prefix (str_of_int v))
      | Some (JBool flag) => Some (prefixed prefix (if flag then "True" else "False")%string)
      | _ => first_id o prefix keys'
      end
  end.

Definition _get_item_id (o : json_object) (prefix : string) (idx : nat) : string :=
  match first_id o prefix [:: "task_id"; "id"; "problem_id"]%string with
  | Some v => v
  | None => prefixed prefix (str_of_int (Z.of_nat idx))
  end.

(* A dataset item with the two keys _combine_with_ids adds to its copy. *)
Record item : Type := Item { item_id : string; item_src : string; item_obj : json_object }.

(* for i, x in enumerate(items): ... combined.append(x) *)
Definition tag_items (prefix src : string) (items : seq json_object) : seq item :=
  [seq Item (_get_item_id ix.2 prefix ix.1) src ix.2 | ix <- zip (iota 0 (size items)) items].

(* The deduplication loop: seen is the set of identifiers kept so far. *)
Fixpoint dedup (seen : seq string) (combined : seq item) : seq item :=
  match combined with
  | [::] => [::]
  | x :: combined' =>
      if item_id x \in seen then dedup seen combined'
      else x :: dedup (item_id x :: seen) combined'
  end.

Definition _combine_with_ids (he_items mb_items : seq json_object) : seq item :=
  dedup [::] (tag_items "he"%string "HumanEval"%string he_items
              ++ tag_items "mbpp"%string "MBPP"%string mb_items).

(* An entry of roster["clients"], with the defaults of c.get applied. *)
Record client : Type :=
  Client { client_id : string; train_samples : Z; val_samples : Z }.

(* A Python dict keyed by client identifiers, in insertion order. *)
Definition dict (V : Type) : Type := seq (string * V).

(* m[k] = v *)
Fixpoint dict_set (V : Type) (m : dict V) (k : string) (v : V) : dict V :=
  match m with
  | [::] => [:: (k, v)]
  | kv :: m' => if kv.1 == k then (k, v) :: m' else kv :: dict_set m' k v
  end.

Definition dict_get (V : Type) (m : dict V) (k : string) : option V :=
  if [seq kv.2 | kv <- m & kv.1 == k] is v :: _ then Some v else None.

(* A bound of a slice, brought into 0..len as Python does. *)
Definition slice_bound (len i : Z) : Z :=
  if (i <? 0)%Zs then Z.max 0 (i + len) else Z.min i len.

(* s[lo:hi] *)
Definition py_slice (T : Type) (s : seq T) (lo hi : Z) : seq T :=
  let len := Z.of_nat (size s) in
  let a := slice_bound len lo in
  let c := slice_bound len hi in
  take (Z.to_nat (c - a)) (drop (Z.to_nat a) s).

Definition sumz (zs : seq Z) : Z := foldr Z.add 0%Zs zs.

(* One turn of an allocation loop: the client's slice, then the cursor moves. *)
Definition alloc_step (pool : seq string) (quota : client -> Z)
    (acc : dict (seq string) * Z) (c : client) : dict (seq string) * Z :=
  let '(splits, cursor) := acc in
  let n := quota c in
  (dict_set splits (client_id c) (py_slice pool cursor (cursor + n)), (cursor + n)%Zs).

Section Alloc.

(* rng = np.random.default_rng(seed); rng.shuffle(pool): numpy's generator
   is outside the repository; it rearranges the pool, as a function of the
   seed and the pool. *)
Variable shuffle : Z -> seq string -> seq string.

Definition _alloc_splits (combined_ids : seq string) (roster : seq client)
    (seed : Z) (global_test_size : Z)
  : result (dict (seq string) * dict (seq string) * seq string) :=
  let pool := shuffle seed combined_ids in
  let req_train := sumz [seq train_samples c | c <- roster] in
  let req_val := sumz [seq val_samples c | c <- roster] in
  let req_total := (req_train + req_val + global_test_size)%Zs in
  if (Z.of_nat (size pool) <? req_total)%Zs then Raise RuntimeError
  else
    let '(train_splits, cursor) := foldl (alloc_step pool train_samples) ([::], 0%Zs) roster in
    let '(val_splits, cursor) := foldl (alloc_step pool val_samples) ([::], cursor) roster in
    let test_ids := py_slice pool cursor (cursor + global_test_size) in
    Ok (train_splits, val_splits, test_ids).

End Alloc.

(* All the identifiers handed out, train sets first, then val sets, then test. *)
Definition handed_out (train val : dict (seq string)) (test : seq string) : seq string :=
  flatten [seq kv.2 | kv <- train] ++ flatten [seq kv.2 | kv <- val] ++ test.

(* The consecutive slices of the pool for a list of quotas, from a start. *)
Fixpoint chunks (pool : seq string) (start : nat) (quotas : seq nat) : seq (seq string) :=
  match quotas with
  | [::] => [::]
  | q :: quotas' => take q (drop start pool) :: chunks pool (start + q) quotas'
  end.

(* The quotas of a roster as natural numbers. *)
Definition nat_quotas (quota : client -> Z) (roster : seq client) : seq nat :=
  [seq Z.to_nat (quota c) | c <- roster].

End SplitSerializer.

(* --------------------------------------------------------------------- *)
(*  simulate_cpm.py: the oracle matching of the simulation driver         *)
(* --------------------------------------------------------------------- *)

Module SimulateCpm.

(* w @ x for one-dimensional arrays: the lengths must agree. *)
Definition dot1 (w x : seq R) : result R :=
  if size w == size x then Ok (\sum_(i < size w) nth 0 w i * nth 0 x i)
  else Raise ValueError.

(* The body of the two nested loops of _oracle_pair_scores for (i, j). *)
Definition oracle_score (w_star : seq R) (contexts : seq (seq R)) (ij : nat * nat)
  : result candidate :=
  dot1 w_star (nth [::] contexts ij.1 ++ nth [::] contexts ij.2) >>= fun mu =>
  Ok (mu, ij.1, ij.2).

(* _oracle_pair_scores: i in range(n), j in range(i + 1, n) enumerate the
   pairs as combinations2 does; then scores.sort(reverse=True). *)
Definition _oracle_pair_scores (w_star : seq R) (contexts : seq (seq R))
  : result (seq candidate) :=
  mapM (oracle_score w_star contexts) (combinations2 (size contexts)) >>= fun scores =>
  Ok (sort cand_ge scores).

(* The loop of _greedy_disjoint_top over the remaining scores. *)
Fixpoint greedy_loop (k_pairs : Z) (scores : seq candidate) (used : seq nat)
    (chosen : seq (nat * nat)) : seq (nat * nat) :=
  match scores with
  | [::] => chosen
  | (_, i, j) :: scores' =>
      if (i \in used) || (j \in used) then greedy_loop k_pairs scores' used chosen
      else
        let chosen' := rcons chosen (i, j) in
        if (k_pairs <=? Z.of_nat (size chosen'))%Zs then chosen'
        else greedy_loop k_pairs scores' (i :: j :: used) chosen'
  end.

Definition _greedy_disjoint_top (scores : seq candidate) (k_pairs : Z) : seq (nat * nat) :=
  greedy_loop k_pairs scores [::] [::].

(* The calls run_sim makes on the bandit in one round: for i, j in
   lin_pairs: linucb.update(concatenate(contexts[i], contexts[j]), reward),
   the reward of each pair being whatever the driver observed. *)
Definition round_observations (contexts : seq (seq R)) (reward : nat * nat -> R)
    (lin_pairs : seq (nat * nat)) : seq (seq R * R) :=
  [seq (nth [::] contexts p.1 ++ nth [::] contexts p.2, reward p) | p <- lin_pairs].

(* Every pair of contexts concatenates to a vector as long as w_star. *)
Definition contexts_fit (w_star : seq R) (contexts : seq (seq R)) : bool :=
  all (fun ij => size w_star == size (nth [::] contexts ij.1 ++ nth [::] contexts ij.2))
      (combinations2 (size contexts)).

End SimulateCpm.

(* The keys _get_item_id looks up, in order. *)
Definition id_keys : seq string := [:: "task_id"; "id"; "problem_id"]%string.

(* An object none of whose id keys holds a usable value: _get_item_id falls
   back on the generated identifier. *)
Definition unlabelled (o : SplitSerializer.json_object) : bool :=
  ~~ isSome (SplitSerializer.first_id o ""%string id_keys).

(* The identifier and the source of an item. *)
Definition id_src (x : SplitSerializer.item) : string * string :=
  (SplitSerializer.item_id x, SplitSerializer.item_src x).

(* The ring tactic of the Stdlib on R. *)
Ltac real_ring :=
  let G := Ring_tac.Get_goal in ring_lookup (Ring_tac.PackRing Ring_tac.Ring_gen) [] G.

(* --------------------------------------------------------------------- *)
(*  The arithmetic the code runs on: IEEE 754 binary32 arrays             *)
(* --------------------------------------------------------------------- *)

(* The real number a finite float stands for (0 for infinities and NaN,
   which the properties below never meet). *)
Definition float_to_R (x : SpecFloat.spec_float) : R :=
  match x with
  | SpecFloat.S754_finite s m e =>
      (if s then -1 else 1) * (IZR (Zpos m) * powerRZ 2 e)
  | _ => 0
  end.

(* cpm_linucb.py with its arrays as numpy stores them (dtype=np.float32):
   every product and every sum is rounded to the nearest binary32 value,
   ties to even. *)
Module Float32.

Definition prec : Z := 24.
Definition emax : Z := 128.

(* An integer as a binary32 value (rounded when it has more than 24 bits). *)
Definition of_Z (n : Z) : SpecFloat.spec_float :=
  SpecFloat.binary_normalize prec emax n 0 false.

Definition add : SpecFloat.spec_float -> SpecFloat.spec_float -> SpecFloat.spec_float :=
  SpecFloat.SFadd prec emax.

Definition mul : SpecFloat.spec_float -> SpecFloat.spec_float -> SpecFloat.spec_float :=
  SpecFloat.SFmul prec emax.

Definition zero : SpecFloat.spec_float := SpecFloat.S754_zero false.

(* The state: A as a list of rows, b as the entries of its one column. *)
Record LinUCB : Type :=
  { d : nat;
    lam : SpecFloat.spec_float;
    beta0 : SpecFloat.spec_float;
    A : seq (seq SpecFloat.spec_float);
    b : seq SpecFloat.spec_float }.

(* np.eye(n, dtype=np.float32) *)
Definition eye (n : nat) : seq (seq SpecFloat.spec_float) :=
  [seq [seq if i == j then of_Z 1 else zero | j <- iota 0 n] | i <- iota 0 n].

(* LinUCB.__init__: A = lam * eye(d), b = zeros((d, 1)); lam is the
   configured constant as numpy casts it to binary32 for the product. *)
Definition init (d0 : nat) (lam0 beta : SpecFloat.spec_float) : LinUCB :=
  {| d := d0; lam := lam0; beta0 := beta;
     A := [seq [seq mul lam0 e | e <- row] | row <- eye d0];
     b := nseq d0 zero |}.

(* M += a for a d x d array M and an n x n array a: entry by entry when
   n = d, the one entry of a added everywhere when n = 1, the shape error
   otherwise. *)
Definition iadd_matrix (d0 : nat) (M a : seq (seq SpecFloat.spec_float))
  : result (seq (seq SpecFloat.spec_float)) :=
  if size a == d0 then
    Ok [seq [seq add mp.1 mp.2 | mp <- zip rows.1 rows.2] | rows <- zip M a]
  else if size a == 1%N then
    Ok [seq [seq add m (nth zero (nth [::] a 0) 0) | m <- row] | row <- M]
  else Raise ValueError.

(* v += a for the column v of length d and a column a of length n. *)
Definition iadd_column (d0 : nat) (v a : seq SpecFloat.spec_float)
  : result (seq SpecFloat.spec_float) :=
  if size a == d0 then Ok [seq add mp.1 mp.2 | mp <- zip v a]
  else if size a == 1%N then Ok [seq add m (nth zero a 0) | m <- v]
  else Raise ValueError.

(* LinUCB.update, ctx_vec and reward already cast to binary32:
   self.A += x @ x.T; self.b += r * x. *)
Definition update (self : LinUCB) (ctx_vec : seq SpecFloat.spec_float)
    (reward : SpecFloat.spec_float) : result LinUCB :=
  let x := ctx_vec in
  let xxT := [seq [seq mul xi xj | xj <- x] | xi <- x] in
  iadd_matrix (d self) (A self) xxT >>= fun A' =>
  iadd_column (d self) (b self) [seq mul reward xi | xi <- x] >>= fun b' =>
  Ok {| d := d self; lam := lam self; beta0 := beta0 self; A := A'; b := b' |}.

(* A sequence of update calls, each on the state the previous one left. *)
Fixpoint run_updates (self : LinUCB)
    (obs : seq (seq SpecFloat.spec_float * SpecFloat.spec_float)) : result LinUCB :=
  match obs with
  | [::] => Ok self
  | (ctx_vec, reward) :: obs' =>
      update self ctx_vec reward >>= fun self' => run_updates self' obs'
  end.

(* The arrays have the shapes __init__ gave them: A is d x d, b is d x 1. *)
Definition shaped (self : LinUCB) : bool :=
  [&& size (A self) == d self,
      all (fun row => size row == d self) (A self)
    & size (b self) == d self].

(* The entry A[i, j]. *)
Definition entry (M : seq (seq SpecFloat.spec_float)) (i j : nat) : SpecFloat.spec_float :=
  nth zero (nth [::] M i) j.

(* A[i, j] and A[j, i] are the same float, for all i, j < d. *)
Definition symmetric (self : LinUCB) : Prop :=
  forall i j, (i < d self)%N -> (j < d self)%N ->
    entry (A self) i j = entry (A self) j i.

End Float32.

(* The scalars of the scores are Python floats and numpy float64 values:
   IEEE 754 binary64. *)
Module Float64.

Definition prec : Z := 53.
Definition emax : Z := 1024.

(* float(n) for a Python int n: the nearest binary64 value, ties to even. *)
Definition of_Z (n : Z) : SpecFloat.spec_float :=
  SpecFloat.binary_normalize prec emax n 0 false.

Definition mul : SpecFloat.spec_float -> SpecFloat.spec_float -> SpecFloat.spec_float :=
  SpecFloat.SFmul prec emax.

Definition div : SpecFloat.spec_float -> SpecFloat.spec_float -> SpecFloat.spec_float :=
  SpecFloat.SFdiv prec emax.

Definition sqrt : SpecFloat.spec_float -> SpecFloat.spec_float :=
  SpecFloat.SFsqrt prec emax.

Definition ltb : SpecFloat.spec_float -> SpecFloat.spec_float -> bool :=
  SpecFloat.SFltb.

(* beta = self.beta0 / np.sqrt(max(1, rnd)) *)
Definition beta_of (beta : SpecFloat.spec_float) (rnd : Z) : SpecFloat.spec_float :=
  div beta (sqrt (of_Z (Z.max 1 rnd))).

(* The exploration term beta * conf of a score. *)
Definition exploration (beta conf : SpecFloat.spec_float) (rnd : Z) : SpecFloat.spec_float :=
  mul (beta_of beta rnd) conf.

End Float64.

(* The state a binary32 state stands for, entry by entry. *)
Definition real_state (n : nat) (s : Float32.LinUCB) : LinUCB n :=
  {| lam := float_to_R (Float32.lam s);
     beta0 := float_to_R (Float32.beta0 s);
     A := \matrix_(i < n, j < n)
            float_to_R (Float32.entry (Float32.A s) i j);
     b := \col_(i < n) float_to_R (nth Float32.zero (Float32.b s) i) |}.


(* The float32 state the code is in after __init__ with d = 2, lam = 1 and
   update([1e4, 1e4], 0): fl32(1 + 1e8) = 1e8 = fl32(0 + 1e8). *)
Definition float32_flat : Float32.LinUCB :=
  let c := Float32.of_Z 100000000 in
  {| Float32.d := 2; Float32.lam := Float32.of_Z 1; Float32.beta0 := Float32.of_Z 1;
     Float32.A := [:: [:: c; c]; [:: c; c]];
     Float32.b := [:: Float32.zero; Float32.zero] |}.
(* --------------------------------------------------------------------- *)
(*  The candidate enumeration and the greedy selection loop              *)
(* --------------------------------------------------------------------- *)

Section Selection.

Lemma mem_combinations2 (n i j : nat) :
  ((i, j) \in combinations2 n) = (i < j < n)%N.
Proof.
apply/allpairsPdep/idP => [[i' [j' []]] | /andP [ltij ltjn]].
  rewrite !mem_iota add0n /= => ltin /andP [lt1 lt2] [-> ->].
  by move: lt2; rewrite subnKC // lt1.
have ltin : (i < n)%N by apply: ltn_trans ltjn.
by exists i, j; rewrite !mem_iota add0n subnKC // ltin ltij ltjn.
Qed.

Lemma indices_rcons pairs i j : indices (rcons pairs (i, j)) = indices pairs ++ [:: i; j].
Proof. by rewrite /indices map_rcons -cats1 flatten_cat. Qed.

Lemma size_indices pairs : size (indices pairs) = (size pairs).*2.
Proof. by elim: pairs => //= p ps; rewrite -/(indices ps) => ->. Qed.

Lemma select_step_inv n k acc c :
  in_range n c -> sel_inv n k acc -> sel_inv n k (select_step k acc c).
Proof.
case: acc => pairs used; case: c => [[u i] j] /andP /= [ltij ltjn].
case=> /= hperm huniq hall hsize; rewrite /select_step.
case: ifP => [/andP [/andP [iN jN] /Z.ltb_lt hk] | _]; last by split.
split=> /=.
- rewrite indices_rcons perm_sym perm_catC perm_sym.
  by rewrite (perm_cat2l [:: i; j]).
- by rewrite inE negb_or iN jN huniq (ltn_eqF ltij).
- by rewrite ltjn (ltn_trans ltij ltjn).
- rewrite size_rcons Nat2Z.inj_succ; lia.
Qed.

Lemma select_loop_inv n k cs acc :
  all (in_range n) cs -> sel_inv n k acc -> sel_inv n k (foldl (select_step k) acc cs).
Proof.
elim: cs acc => //= c cs IH acc /andP [hc hcs] hacc.
by apply: IH => //; apply: select_step_inv.
Qed.

Lemma select_step_mono k (acc : seq (nat * nat) * seq nat) c :
  {subset acc.2 <= (select_step k acc c).2}
  /\ (size acc.1 <= size (select_step k acc c).1)%N.
Proof.
case: acc => pairs used; case: c => [[u i] j] /=.
case: ifP => _ /=; last by split.
by split; [move=> x hx; rewrite !inE hx !orbT | rewrite size_rcons].
Qed.

Lemma select_loop_mono k cs (acc : seq (nat * nat) * seq nat) :
  {subset acc.2 <= (foldl (select_step k) acc cs).2}
  /\ (size acc.1 <= size (foldl (select_step k) acc cs).1)%N.
Proof.
elim: cs acc => [|c cs IH] acc /=; first by split.
have [s1 l1] := select_step_mono k acc c.
have [s2 l2] := IH (select_step k acc c).
by split; [move=> x /s1 /s2 | apply: leq_trans l1 l2].
Qed.

Lemma select_step_accept k (acc : seq (nat * nat) * seq nat) (c : candidate) :
  c.1.2 \notin acc.2 -> c.2 \notin acc.2 -> (Z.of_nat (size acc.1) < k)%Zs ->
  c.1.2 \in (select_step k acc c).2.
Proof.
case: acc c => pairs used [[u i] j] /= -> -> /Z.ltb_lt -> /=.
by rewrite inE eqxx.
Qed.

(* While the budget is not exhausted, every candidate seen has lost one of
   its two participants to an accepted pair. *)
Lemma select_loop_complete k cs acc (c : candidate) :
  (Z.of_nat (size (foldl (select_step k) acc cs).1) < k)%Zs ->
  c \in cs ->
  (c.1.2 \in (foldl (select_step k) acc cs).2) || (c.2 \in (foldl (select_step k) acc cs).2).
Proof.
elim: cs acc => [|c0 cs IH] acc //= hlt.
rewrite inE => /orP [/eqP -> | hin]; last exact: IH.
have [sub le1] := select_loop_mono k cs (select_step k acc c0).
have [sub0 le0] := select_step_mono k acc c0.
case iU: (c0.1.2 \in acc.2); first by rewrite (sub _ (sub0 _ iU)).
case jU: (c0.2 \in acc.2); first by rewrite (sub _ (sub0 _ jU)) orbT.
have [hk | hk] := Z_lt_le_dec (Z.of_nat (size acc.1)) k.
  by rewrite (sub _ (select_step_accept _ _ hk)) ?iU ?jU.
move/leP: le0 => le0; move/leP: le1 => le1; lia.
Qed.

Lemma two_unused (n : nat) (used : seq nat) :
  uniq used -> ((size used).+2 <= n)%N ->
  exists i j, [/\ (i < j)%N, (j < n)%N, i \notin used & j \notin used].
Proof.
move=> huniq hsize.
pose s := [seq i <- iota 0 n | i \notin used].
have hs : (2 <= size s)%N.
  have := count_predC (mem used) (iota 0 n).
  rewrite size_iota -!size_filter -/s => hsum.
  have le1 : (size [seq i <- iota 0 n | mem used i] <= size used)%N.
    apply: uniq_leq_size; first by rewrite filter_uniq // iota_uniq.
    by move=> x; rewrite mem_filter => /andP [].
  rewrite -(ltn_add2l (size [seq i <- iota 0 n | mem used i])) hsum addn1.
  exact: leq_ltn_trans hsize.
have srt : sorted ltn s by rewrite sorted_filter ?iota_ltn_sorted //; apply: ltn_trans.
have hmem x : (x \in s) = (x \notin used) && (x < n)%N.
  by rewrite mem_filter mem_iota add0n.
case: (s) hs srt hmem => [|i [|j s']] //= _ /andP [ltij _] hmem; exists i, j.
have := hmem i; rewrite !inE eqxx /= => /esym /andP [iN _].
have := hmem j; rewrite !inE eqxx orbT /= => /esym /andP [jN ltjn].
by split.
Qed.

(* The number of accepted pairs, for candidates covering every pair i < j < n. *)
Lemma select_pairs_count (n : nat) (k : Z) (cs : seq candidate) :
  (0 <= k)%Zs ->
  all (in_range n) cs ->
  (forall i j, (i < j < n)%N -> exists u : R, (u, i, j) \in cs) ->
  Z.of_nat (size (select_pairs k cs)) = Z.min k (Z.of_nat (n %/ 2)).
Proof.
move=> k0 hrange hall; rewrite /select_pairs.
have hinit : sel_inv n k ([::], [::]) by split=> //=; lia.
have := select_loop_inv hrange hinit.
have := @select_loop_complete k cs ([::], [::]).
case: (foldl _ _ _) => pairs used /= hcompl [/= hperm huniq hlt hk].
have hsz : size used = (size pairs).*2 by rewrite (perm_size hperm) size_indices.
have hle : (size used <= n)%N.
  have := uniq_leq_size huniq (s2 := iota 0 n).
  rewrite size_iota; apply => x hx; rewrite mem_iota add0n /=.
  by move/allP: hlt; apply.
have hdiv : (size pairs <= n %/ 2)%N.
  by rewrite leq_divRL // muln2 -hsz.
have [hlt_k | hge_k] := Z_lt_le_dec (Z.of_nat (size pairs)) k; last first.
  move/leP: hdiv => hdiv; lia.
have hfull : (n < (size used).+2)%N.
  rewrite ltnNge; apply/negP => /(two_unused huniq) [i [j [ltij ltjn iN jN]]].
  have [|u hu] := hall i j; first by rewrite ltij.
  have := hcompl (u, i, j) hlt_k hu.
  by rewrite /= (negbTE iN) (negbTE jN).
have hhalf : (n %/ 2 <= size pairs)%N.
  rewrite -ltnS; rewrite ltn_divLR // muln2 doubleS -hsz.
  by apply: leq_trans hfull _.
have heq : size pairs = (n %/ 2)%N by apply/eqP; rewrite eqn_leq hdiv hhalf.
rewrite -heq; lia.
Qed.

End Selection.

(* --------------------------------------------------------------------- *)
(*  Reading the numpy expressions as matrix products                     *)
(* --------------------------------------------------------------------- *)

Section Evaluation.

Lemma ent_of_mx p q (M : 'M[R]_(p, q)) (i : 'I_p) (j : 'I_q) :
  ent (of_mx M) i j = M i j.
Proof. by rewrite /of_mx /= !valK. Qed.

Lemma insub_ord0 : insub 0%N = Some (ord0 : 'I_1).
Proof. by rewrite -[0%N]/(val (ord0 : 'I_1)) valK. Qed.

Lemma mu_of_ok d (theta : 'cV[R]_d) (l : seq R) :
  size l = d -> mu_of theta (column l) = Ok ((theta^T *m colv d l) 0 0).
Proof.
move=> hsz; rewrite /mu_of /matmul /= hsz eqxx /= /to_float /= mxE.
congr Ok; apply: eq_bigr => k _.
by rewrite insub_ord0 valK !mxE.
Qed.

Lemma mu_of_mismatch d (theta : 'cV[R]_d) (l : seq R) :
  size l != d -> mu_of theta (column l) = Raise ValueError.
Proof. by rewrite /mu_of /matmul /= eq_sym => /negbTE ->. Qed.

Lemma conf_of_ok d (A_inv : 'M[R]_d) (l : seq R) :
  size l = d -> conf_of A_inv (column l) = Ok (sqrt (quad A_inv (colv d l))).
Proof.
move=> hsz; subst d.
rewrite /conf_of /matmul /= eqxx /= eqxx /= /to_float /= /quad.
congr (Ok (sqrt _)); rewrite mxE; apply: eq_bigr => k _.
rewrite !mxE; congr (_ * _); apply: eq_bigr => k' _.
by rewrite !valK !mxE.
Qed.

Lemma conf_of_mismatch d (A_inv : 'M[R]_d) (l : seq R) :
  size l != d -> conf_of A_inv (column l) = Raise ValueError.
Proof. by rewrite /conf_of /matmul /= => /negbTE ->. Qed.

End Evaluation.

Section UpdateShapes.

Variable d : nat.
Implicit Type self : LinUCB d.

Lemma update_ok self l reward :
  size l = d -> update self l reward = Ok (updated self l reward).
Proof.
move=> hsz; rewrite /update /matmul /= /iadd /= /broadcasts_to hsz eqxx /=.
rewrite /multiply /broadcast_dim /= hsz.
have -> : (if 1%N == d then Some 1%N else Some d) = Some d.
  by case: eqP => // ->.
rewrite /= eqxx /=; congr Ok; rewrite /updated; congr Build_LinUCB.
  congr (_ + _); apply/matrixP => i j; rewrite !mxE !big_ord1 !mxE /bidx.
  by case: eqP => // d1; move: i j; rewrite d1 => i j; rewrite !ord1.
congr (_ + _); apply/matrixP => i j; rewrite !mxE /bidx /=.
by case: eqP => // d1; move: i j; rewrite d1 => i j; rewrite !ord1.
Qed.

Lemma update_stretch self x0 reward :
  update self [:: x0] reward = Ok (stretched self x0 reward).
Proof.
rewrite /update /matmul /= /iadd /= /broadcasts_to /= !orbT /=.
rewrite /stretched; congr Ok; congr Build_LinUCB.
  by congr (_ + _); apply/matrixP => i j; rewrite !mxE big_ord1.
by congr (_ + _); apply/matrixP => i j; rewrite !mxE.
Qed.

Lemma update_mismatch self l reward :
  size l != d -> size l != 1%N -> update self l reward = Raise ValueError.
Proof.
move=> /negbTE hd /negbTE h1.
by rewrite /update /matmul /= /iadd /= /broadcasts_to hd h1.
Qed.

Lemma ucb_score_ok self l rnd :
  A self \in unitmx -> size l = d ->
  ucb_score self l rnd =
    Ok (((invmx (A self) *m b self)^T *m colv d l) 0 0
        + beta_of self rnd * sqrt (quad (invmx (A self)) (colv d l))).
Proof.
move=> hu hsz; rewrite /ucb_score /_theta /linalg_solve /linalg_inv hu /=.
by rewrite mu_of_ok // conf_of_ok.
Qed.


Lemma ucb_score_singular self l rnd :
  A self \notin unitmx -> ucb_score self l rnd = Raise LinAlgError.
Proof. by move=> /negbTE hu; rewrite /ucb_score /_theta /linalg_solve hu. Qed.

End UpdateShapes.

(* --------------------------------------------------------------------- *)
(*  Symmetric positive-definite matrices and rank-one updates            *)
(* --------------------------------------------------------------------- *)

Lemma sumR_ge0 (I : Type) (r : seq I) (P : pred I) (F : I -> R) :
  (forall i, P i -> Rle 0 (F i)) -> Rle 0 (\sum_(i <- r | P i) F i).
Proof.
move=> hF; apply: (big_ind (fun x : R => Rle 0 x)) => //; first exact: Rle_refl.
by move=> x y hx hy; apply: Rplus_le_le_0_compat.
Qed.

Lemma exprR_gt0 (a : R) (n : nat) : Rlt 0 a -> Rlt 0 (a ^+ n).
Proof.
move=> ha; elim: n => [|n IH]; first by rewrite expr0; exact: Rlt_0_1.
by rewrite exprS; apply: Rmult_lt_0_compat.
Qed.

Section PositiveDefinite.

Variable d : nat.
Implicit Types (M N : 'M[R]_d) (v x : 'cV[R]_d).

Lemma quadD M N v : quad (M + N) v = quad M v + quad N v.
Proof. by rewrite /quad mulmxDr mulmxDl mxE. Qed.

Lemma quad0 M : quad M 0 = 0.
Proof. by rewrite /quad mulmx0 mxE. Qed.

Lemma dotC x v : dot x v = dot v x.
Proof. by rewrite /dot -[x^T *m v]trmxK trmx_mul trmxK mxE. Qed.

Lemma quad_outer x v : quad (x *m x^T) v = dot x v * dot x v.
Proof.
by rewrite /quad mulmxA -mulmxA mxE big_ord1 -/(dot v x) -/(dot x v) dotC.
Qed.

Lemma quad_scalar (a : R) v : quad (a *: 1%:M) v = a * dot v v.
Proof. by rewrite /quad -scalemxAr mulmx1 -scalemxAl mxE. Qed.

Lemma quad_outer_ge0 x v : Rle 0 (quad (x *m x^T) v).
Proof. by rewrite quad_outer; stdR; Lra.nra. Qed.

Lemma dot_self_gt0 v : v != 0 -> Rlt 0 (dot v v).
Proof.
move=> v0.
have [i vi] : exists i, v i 0 != 0.
  apply/existsP; rewrite -negb_forall; apply: contra v0 => /forallP h.
  by apply/eqP/matrixP => i j; rewrite mxE ord1; apply/eqP; apply: h.
rewrite /dot mxE (bigD1 i) //= mxE.
have h1 : Rlt 0 (v i 0 * v i 0).
  by move/eqP: vi => vi; apply: (Rsqr_pos_lt _ vi).
have h2 : Rle 0 (\sum_(j < d | j != i) v^T 0 j * v j 0).
  by apply: sumR_ge0 => j _; rewrite mxE; stdR; Lra.nra.
exact: Rplus_lt_le_0_compat.
Qed.

Lemma symmetric_scalar (a : R) : symmetric (a *: 1%:M : 'M[R]_d).
Proof. by rewrite /symmetric linearZ /= trmx1. Qed.

Lemma symmetric_outer M x : symmetric M -> symmetric (M + x *m x^T).
Proof. by rewrite /symmetric linearD /= trmx_mul trmxK => ->. Qed.

Lemma posdef_scalar (a : R) : Rlt 0 a -> posdef (a *: 1%:M : 'M[R]_d).
Proof.
move=> a0 v /dot_self_gt0 hv; rewrite quad_scalar.
exact: Rmult_lt_0_compat.
Qed.

Lemma posdef_outer M x : posdef M -> posdef (M + x *m x^T).
Proof.
move=> pd v /pd hv; rewrite quadD.
by move: (quad_outer_ge0 x v) hv; stdR; Lra.lra.
Qed.

Lemma posdef_unitmx M : posdef M -> M \in unitmx.
Proof.
move=> pd; rewrite unitmxE unitfE; apply/negP => /det0P [w w0 wM].
have w0' : w^T != 0 by rewrite -trmx0 (inj_eq trmx_inj).
have := pd _ w0'; rewrite /quad trmxK wM mul0mx mxE.
exact: Rlt_irrefl.
Qed.

Lemma symmetric_inv M : symmetric M -> symmetric (invmx M).
Proof. by rewrite /symmetric trmx_inv => ->. Qed.

Lemma quad_inv M v :
  M \in unitmx -> symmetric M -> quad (invmx M) v = quad M (invmx M *m v).
Proof.
move=> hu hs; rewrite /quad trmx_mul trmx_inv hs.
by rewrite -!mulmxA (mulKVmx hu).
Qed.

Lemma posdef_inv M : symmetric M -> posdef M -> posdef (invmx M).
Proof.
move=> hs pd v v0; have hu := posdef_unitmx pd.
rewrite quad_inv //; apply: pd.
apply: contra v0 => /eqP h.
by rewrite -[v](mulKVmx hu) h mulmx0.
Qed.

Lemma quad_inv_ge0 M v : symmetric M -> posdef M -> Rle 0 (quad (invmx M) v).
Proof.
move=> hs pd.
have [/eqP -> | v0] := boolP (v == 0); first by rewrite quad0; apply: Rle_refl.
by apply: Rlt_le; apply: posdef_inv.
Qed.

End PositiveDefinite.

Section RankOneDeterminant.

Variable d : nat.

Lemma det_one_plus_outer (u : 'cV[R]_d) (w : 'rV[R]_d) :
  \det (1%:M + u *m w) = 1 + (w *m u) 0 0.
Proof.
pose L : 'M[R]_(d + 1) := block_mx 1%:M 0 (- w) 1%:M.
pose U1 : 'M[R]_(d + 1) := block_mx 1%:M u 0 (1%:M + w *m u).
pose U2 : 'M[R]_(d + 1) := block_mx (1%:M + u *m w) u 0 1%:M.
have e : L *m U1 = U2 *m L.
  rewrite /L /U1 /U2 !mulmx_block !mul1mx !mulmx1 !mul0mx !mulmx0 !addr0 !add0r.
  by rewrite mulNmx addrCA addNr addr0 mulmxN addrK.
have := congr1 determinant e.
rewrite !det_mulmx det_lblock !det_ublock !det1 !mul1r !mulr1 det_mx11 => <-.
by rewrite mxE [1%:M 0 0]mxE eqxx.
Qed.

Lemma det_rank_one (M : 'M[R]_d) (x : 'cV[R]_d) :
  M \in unitmx -> \det (M + x *m x^T) = \det M * (1 + quad (invmx M) x).
Proof.
move=> hu.
have -> : M + x *m x^T = M *m (1%:M + (invmx M *m x) *m x^T).
  by rewrite mulmxDr mulmx1 !mulmxA (mulmxV hu) mul1mx.
by rewrite det_mulmx det_one_plus_outer /quad !mulmxA.
Qed.

End RankOneDeterminant.

(* --------------------------------------------------------------------- *)
(*  The invariant of the bandit state                                    *)
(* --------------------------------------------------------------------- *)

Section StateInvariant.

Variable d : nat.
Implicit Type self : LinUCB d.

Lemma const_mx_outer (x0 : R) :
  (const_mx (x0 * x0) : 'M[R]_d) = (const_mx x0 : 'cV[R]_d) *m (const_mx x0)^T.
Proof. by apply/matrixP => i j; rewrite !mxE big_ord1 !mxE. Qed.

(* Every successful update adds a rank-one term to A. *)
Lemma update_rank_one self l reward self' :
  update self l reward = Ok self' ->
  exists x : 'cV[R]_d, A self' = A self + x *m x^T.
Proof.
have [/eqP hd | hd] := boolP (size l == d).
  by rewrite update_ok // => -[<-]; exists (colv d l).
have [h1 | h1] := boolP (size l == 1%N); last by rewrite update_mismatch.
case: l h1 {hd} => [|x0 [|? ?]] // _.
by rewrite update_stretch => -[<-]; exists (const_mx x0); rewrite /= const_mx_outer.
Qed.

Lemma spd_rank_one (M : 'M[R]_d) (x : 'cV[R]_d) :
  symmetric M -> posdef M -> Rlt 0 (\det M) ->
  [/\ symmetric (M + x *m x^T), posdef (M + x *m x^T) & Rlt 0 (\det (M + x *m x^T))].
Proof.
move=> hs pd hdet; split; [exact: symmetric_outer | exact: posdef_outer |].
rewrite (det_rank_one _ (posdef_unitmx pd)).
apply: Rmult_lt_0_compat => //.
by move: (quad_inv_ge0 x hs pd); stdR; Lra.lra.
Qed.

Lemma spd_init (lam0 beta : R) :
  Rlt 0 lam0 ->
  spd_state (init {| cfg_d := d; cfg_lam := lam0; cfg_beta0 := beta |}).
Proof.
move=> h; split; rewrite /=; [exact: symmetric_scalar | exact: posdef_scalar |].
by rewrite scalemx1 det_scalar; apply: exprR_gt0.
Qed.

Lemma spd_update self l reward self' :
  spd_state self -> update self l reward = Ok self' -> spd_state self'.
Proof.
case=> hs pd hdet /update_rank_one [x e]; rewrite /spd_state e.
exact: spd_rank_one.
Qed.

Lemma reachable_spd self : reachable self -> spd_state self.
Proof.
elim=> [lam0 beta h | s s' l r _ IH hu]; first exact: spd_init.
exact: spd_update IH hu.
Qed.

Lemma spd_unitmx self : spd_state self -> A self \in unitmx.
Proof. by case=> _ pd _; apply: posdef_unitmx. Qed.

Lemma reachable_unitmx self : reachable self -> A self \in unitmx.
Proof. by move/reachable_spd/spd_unitmx. Qed.

Lemma run_updates_spd self (obs : seq (seq R * R)) :
  spd_state self -> all (fun o => size o.1 == d) obs ->
  exists2 self', run_updates self obs = Ok self' & spd_state self'.
Proof.
elim: obs self => [|[l r] obs IH] self hspd /=; first by exists self.
case/andP => /eqP hl hobs; rewrite update_ok //=.
by apply: IH => //; apply: spd_update hspd (update_ok self r hl).
Qed.

End StateInvariant.

(* --------------------------------------------------------------------- *)
(*  The candidates scored by choose_pairs                                *)
(* --------------------------------------------------------------------- *)

Section Candidates.

Variable d : nat.
Implicit Type self : LinUCB d.

Lemma mapM_map (T : eqType) (U : Type) (f : T -> result U) (g : T -> U) (s : seq T) :
  (forall x, x \in s -> f x = Ok (g x)) -> mapM f s = Ok (map g s).
Proof.
elim: s => //= x s IH h; rewrite h ?mem_head //= IH // => y ys.
by apply: h; rewrite inE ys orbT.
Qed.

(* Whatever the scores are, the candidates carry the enumerated pairs, in order. *)
Lemma mapM_score_pair beta (A_inv : 'M[R]_d) theta profiles (s : seq (nat * nat)) cs :
  mapM (score_pair beta A_inv theta profiles) s = Ok cs -> map pair_of cs = s.
Proof.
elim: s cs => [|[i j] s IH] cs /=; first by case=> <-.
rewrite /score_pair /=; case: (mu_of _ _) => //= mu; case: (conf_of _ _) => //= conf.
case e: (mapM _ _) => [cs'|] //= [<-] /=.
by rewrite (IH _ e).
Qed.

Lemma candidates_of_pairs self profiles rnd cs :
  candidates_of self profiles rnd = Ok cs ->
  map pair_of cs = combinations2 (size profiles).
Proof.
rewrite /candidates_of; case: (linalg_inv _) => //= A_inv.
by case: (_theta _) => //= theta; apply: mapM_score_pair.
Qed.

Lemma candidates_of_ok self profiles rnd :
  A self \in unitmx -> profiles_fit d profiles ->
  candidates_of self profiles rnd
    = Ok (map (scored self profiles rnd) (combinations2 (size profiles))).
Proof.
move=> hu /allP hfit.
rewrite /candidates_of /_theta /linalg_inv /linalg_solve hu /=.
apply: mapM_map => ij /hfit /eqP hsz.
by rewrite /score_pair mu_of_ok // conf_of_ok.
Qed.

Lemma candidates_of_singular self profiles rnd :
  A self \notin unitmx -> candidates_of self profiles rnd = Raise LinAlgError.
Proof. by move=> /negbTE hu; rewrite /candidates_of /linalg_inv hu. Qed.


Lemma in_range_candidates (n : nat) (cs : seq candidate) :
  map pair_of cs = combinations2 n -> all (in_range n) cs.
Proof.
move=> h; apply/allP => -[[u i] j] hc.
have : (i, j) \in combinations2 n by rewrite -h; apply/mapP; exists (u, i, j).
by rewrite mem_combinations2.
Qed.

Lemma cover_candidates (n : nat) (cs : seq candidate) :
  map pair_of cs = combinations2 n ->
  forall i j, (i < j < n)%N -> exists u : R, (u, i, j) \in cs.
Proof.
move=> h i j; rewrite -mem_combinations2 -h => /mapP [[[u i'] j'] hc [-> ->]].
by exists u.
Qed.

End Candidates.

Lemma select_pairs_spec (n : nat) (k : Z) (cs : seq candidate) :
  all (in_range n) cs ->
  [/\ uniq (indices (select_pairs k cs)),
      (Z.of_nat (size (select_pairs k cs)) <= Z.max 0 k)%Zs
    & (size (select_pairs k cs) <= n %/ 2)%N].
Proof.
move=> hrange; rewrite /select_pairs.
have hinit : sel_inv n k ([::], [::]) by split=> //=; lia.
have := select_loop_inv hrange hinit.
case: (foldl _ _ _) => pairs used [/= hperm huniq hlt hk].
split=> //; first by rewrite -(perm_uniq hperm).
rewrite leq_divRL // muln2 -size_indices -(perm_size hperm).
have := uniq_leq_size huniq (s2 := iota 0 n).
rewrite size_iota; apply => x hx; rewrite mem_iota add0n /=.
by move/allP: hlt; apply.
Qed.

(* --------------------------------------------------------------------- *)
(*  The order on candidates used by the sort                             *)
(* --------------------------------------------------------------------- *)

Section CandidateOrder.

Lemma RltbP (x y : R) : reflect (Rlt x y) (Rltb x y).
Proof. by rewrite /Rltb; case: Rlt_dec => h; constructor. Qed.

Lemma RcompareP (x y : R) : compare_real x y (x == y) (Rltb x y) (Rltb y x).
Proof.
case: (total_order_T x y) => [[h | h] | h].
- have -> : (x == y) = false by apply/eqP => e; move: h; rewrite e; apply: Rlt_irrefl.
  have -> : Rltb x y by apply/RltbP.
  have -> : Rltb y x = false by apply/RltbP; Lra.lra.
  by constructor.
- rewrite h eqxx; have -> : Rltb y y = false by apply/RltbP; exact: Rlt_irrefl.
  by constructor.
- have -> : (x == y) = false by apply/eqP => e; move: h; rewrite e; apply: Rlt_irrefl.
  have -> : Rltb y x by apply/RltbP.
  have -> : Rltb x y = false by apply/RltbP; Lra.lra.
  by constructor.
Qed.

Lemma pair_ltE (p q : nat * nat) :
  pair_lt p q = (p.1 < q.1)%N || ((p.1 == q.1) && (p.2 < q.2)%N).
Proof. by rewrite /pair_lt; case: (ltngtP p.1 q.1). Qed.

Lemma pair_lt_irrefl : irreflexive pair_lt.
Proof. by move=> p; rewrite /pair_lt eqxx ltnn. Qed.

Lemma pair_lt_trans : transitive pair_lt.
Proof.
move=> [i2 j2] [i1 j1] [i3 j3]; rewrite /pair_lt /=.
case: (ltngtP i1 i2) => h12 //; case: (ltngtP i2 i3) => h23 //;
  case: (ltngtP i1 i3) => h13 //; try (move: h12 h23 h13; subst);
  try (by move=> *; apply: ltn_trans; eassumption);
  move=> *; exfalso;
  repeat match goal with H : is_true (_ < _)%N |- _ => move/ltP: H => H end; lia.
Qed.

Lemma pair_lt_total (p q : nat * nat) : p != q -> pair_lt p q || pair_lt q p.
Proof.
case: p q => [i1 j1] [i2 j2]; rewrite /pair_lt /= xpair_eqE.
by case: (ltngtP i1 i2) => //= _; case: (ltngtP j1 j2).
Qed.

Lemma pair_ge_trans : transitive (fun p q => ~~ pair_lt p q).
Proof.
move=> [i2 j2] [i1 j1] [i3 j3]; rewrite !pair_ltE /= !negb_or !negb_and -!leqNgt.
move=> /andP [a1 o1] /andP [a2 o2]; rewrite (leq_trans a2 a1) /=.
case: (eqVneq i1 i3) => //= e; subst i3.
have e12 : i1 = i2 by apply/eqP; rewrite eqn_leq a1 a2.
by subst i2; move: o1 o2; rewrite eqxx /= => o1 o2; apply: leq_trans o2 o1.
Qed.

Lemma cand_lt_tie (u : R) (p q : nat * nat) :
  cand_lt (u, p.1, p.2) (u, q.1, q.2) = pair_lt p q.
Proof. by rewrite /cand_lt eqxx. Qed.

Lemma cand_lt_ucb (u1 u2 : R) (i1 j1 i2 j2 : nat) :
  Rlt u1 u2 -> cand_lt (u1, i1, j1) (u2, i2, j2) /\ cand_lt (u2, i2, j2) (u1, i1, j1) = false.
Proof.
by move=> h; rewrite /cand_lt; case: (RcompareP u1 u2) h => //; case: (RcompareP u2 u1) => //;
   move=> *; exfalso; Lra.lra.
Qed.

Lemma cand_ge_total : total cand_ge.
Proof.
move=> [[u1 i1] j1] [[u2 i2] j2]; rewrite /cand_ge /cand_lt.
case: (RcompareP u1 u2) => h; case: (RcompareP u2 u1) => h' //; try (exfalso; Lra.lra).
by case: (ltngtP i1 i2) => //; case: (ltngtP j1 j2).
Qed.

Lemma cand_ge_trans : transitive cand_ge.
Proof.
move=> [[u2 i2] j2] [[u1 i1] j1] [[u3 i3] j3]; rewrite /cand_ge /cand_lt.
case: (RcompareP u1 u2) => h12; case: (RcompareP u2 u3) => h23;
  case: (RcompareP u1 u3) => h13 //; try (exfalso; Lra.lra).
exact: (@pair_ge_trans (i2, j2) (i1, j1) (i3, j3)).
Qed.

End CandidateOrder.

(* --------------------------------------------------------------------- *)
(*  The exploration coefficient beta                                     *)
(* --------------------------------------------------------------------- *)

Section Exploration.

Variable d : nat.
Implicit Type self : LinUCB d.

Lemma sqrt_round_ge1 (rnd : Z) : Rle 1 (sqrt (IZR (Z.max 1 rnd))).
Proof.
rewrite -{1}sqrt_1; apply: sqrt_le_1_alt.
by apply: IZR_le; lia.
Qed.

Lemma sqrt_round_le (r1 r2 : Z) :
  (r1 <= r2)%Zs -> Rle (sqrt (IZR (Z.max 1 r1))) (sqrt (IZR (Z.max 1 r2))).
Proof. by move=> h; apply: sqrt_le_1_alt; apply: IZR_le; lia. Qed.

Lemma sqrt_round_lt (r1 r2 : Z) :
  (1 <= r1 < r2)%Zs -> Rlt (sqrt (IZR (Z.max 1 r1))) (sqrt (IZR (Z.max 1 r2))).
Proof.
move=> h; apply: sqrt_lt_1_alt; split.
  by apply: IZR_le; lia.
by apply: IZR_lt; lia.
Qed.

Lemma beta_of_floor self (r1 r2 : Z) :
  (r1 <= 1)%Zs -> (r2 <= 1)%Zs -> beta_of self r1 = beta_of self r2.
Proof.
by move=> h1 h2; rewrite /beta_of (Z.max_l 1 r1) // (Z.max_l 1 r2).
Qed.

Lemma beta_of_le self (r1 r2 : Z) :
  Rle 0 (beta0 self) -> (r1 <= r2)%Zs -> Rle (beta_of self r2) (beta_of self r1).
Proof.
move=> hb h; rewrite /beta_of /Rdiv.
apply: Rmult_le_compat_l => //; apply: Rinv_le_contravar; last exact: sqrt_round_le.
by have := sqrt_round_ge1 r1; Lra.lra.
Qed.

Lemma beta_of_lt self (r1 r2 : Z) :
  Rlt 0 (beta0 self) -> (1 <= r1 < r2)%Zs -> Rlt (beta_of self r2) (beta_of self r1).
Proof.
move=> hb h; rewrite /beta_of /Rdiv.
apply: Rmult_lt_compat_l => //; apply: Rinv_lt_contravar; last exact: sqrt_round_lt.
have := sqrt_round_ge1 r1; have := sqrt_round_ge1 r2.
by move=> h2 h1; apply: Rmult_lt_0_compat; Lra.lra.
Qed.

Lemma colv_neq0 (x : seq R) :
  size x = d -> nonzero x -> colv d x != 0.
Proof.
rewrite /nonzero => hsz hx.
have hi : (find (fun a : R => a != 0%R) x < d)%N by rewrite -hsz -has_find.
apply/eqP => /matrixP /(_ (Ordinal hi) 0); rewrite !mxE /= => h0.
by have := nth_find 0 hx; rewrite h0 eqxx.
Qed.

Lemma conf_gt0 self (x : seq R) :
  spd_state self -> size x = d -> nonzero x ->
  Rlt 0 (sqrt (quad (invmx (A self)) (colv d x))).
Proof.
case=> hs pd _ hsz hx; apply: sqrt_lt_R0.
by apply: posdef_inv => //; apply: colv_neq0.
Qed.

End Exploration.

(* --------------------------------------------------------------------- *)
(*  A bandit of dimension 2 in its initial state                         *)
(* --------------------------------------------------------------------- *)

Section Scenario.

Lemma init_cfg2_A : A (init cfg2) = 1%:M.
Proof. by rewrite /=; have -> : (1%Re : R) = 1%R by []; rewrite scale1r. Qed.

Lemma init_cfg2_unit : A (init cfg2) \in unitmx.
Proof. by rewrite init_cfg2_A unitmx1. Qed.

Lemma beta_of_cfg2 : beta_of (init cfg2) 1%Zs = 1.
Proof. by rewrite /beta_of /= sqrt_1; stdR; Lra.lra. Qed.

Lemma quad_colv2 (a c : R) : quad 1%:M (colv 2 [:: a; c]) = \sum_(t <- [:: a; c]) t * t.
Proof.
rewrite /quad mulmx1 mxE !big_ord_recl big_ord0 !mxE /=.
by rewrite !big_cons big_nil.
Qed.

Lemma scored_cfg2 (profiles : seq (seq R)) (ij : nat * nat) (a c : R) :
  nth [::] profiles ij.1 ++ nth [::] profiles ij.2 = [:: a; c] ->
  scored (init cfg2) profiles 1%Zs ij = (norm2 [:: a; c], ij.1, ij.2).
Proof.
move=> e; rewrite /scored e beta_of_cfg2 init_cfg2_A invmx1 quad_colv2.
by rewrite [b _]/= mulmx0 trmx0 mul0mx mxE add0r mul1r.
Qed.

Lemma candidates_cfg2 (p0 p1 p2 : R) :
  candidates_of (init cfg2) [:: [:: p0]; [:: p1]; [:: p2]] 1%Zs
  = Ok [:: (norm2 [:: p0; p1], 0%N, 1%N); (norm2 [:: p0; p2], 0%N, 2%N);
           (norm2 [:: p1; p2], 1%N, 2%N)].
Proof.
rewrite candidates_of_ok ?init_cfg2_unit //=.
by rewrite (@scored_cfg2 _ (0, 1)%N p0 p1) // (@scored_cfg2 _ (0, 2)%N p0 p2) //
  (@scored_cfg2 _ (1, 2)%N p1 p2).
Qed.

End Scenario.

Lemma combinations2_uniq (n : nat) : uniq (combinations2 n).
Proof.
apply: allpairs_uniq_dep => [|i _|]; rewrite ?iota_uniq //.
by move=> [i j] [i' j'] _ _ /= [-> ->].
Qed.

Lemma norm2_lt (l1 l2 : seq R) :
  Rle 0 (\sum_(a <- l1) a * a) ->
  Rlt (\sum_(a <- l1) a * a) (\sum_(a <- l2) a * a) ->
  Rlt (norm2 l1) (norm2 l2).
Proof. by move=> h0 h; apply: sqrt_lt_1_alt. Qed.

Lemma scenario_norms :
  Rlt (norm2 [:: 1%Re; 0%Re]) (norm2 [:: 1%Re; (1 / 2)%Re])
  /\ Rlt (norm2 [:: 0%Re; (1 / 2)%Re]) (norm2 [:: 1%Re; 0%Re]).
Proof.
by split; apply: norm2_lt; rewrite !big_cons !big_nil; stdR; Lra.lra.
Qed.

Lemma Rlt_tests (x y : R) :
  Rlt x y -> [/\ (x == y) = false, (y == x) = false, Rltb x y = true & Rltb y x = false].
Proof.
by move=> h; case: (RcompareP x y) h => //; case: (RcompareP y x) => //;
   move=> *; exfalso; Lra.lra.
Qed.

Lemma scenario_sorted :
  sort cand_ge [:: (norm2 [:: 1%Re; 0%Re], 0%N, 1%N);
                   (norm2 [:: 1%Re; (1 / 2)%Re], 0%N, 2%N);
                   (norm2 [:: 0%Re; (1 / 2)%Re], 1%N, 2%N)]
  = [:: (norm2 [:: 1%Re; (1 / 2)%Re], 0%N, 2%N);
        (norm2 [:: 1%Re; 0%Re], 0%N, 1%N);
        (norm2 [:: 0%Re; (1 / 2)%Re], 1%N, 2%N)].
Proof.
have [h1 h2] := scenario_norms.
have [e1 e2 e3 e4] := Rlt_tests h1.
have [f1 f2 f3 f4] := Rlt_tests h2.
have [g1 g2 g3 g4] := Rlt_tests (Rlt_trans _ _ _ h2 h1).
by rewrite /sort /= /cand_ge /cand_lt e1 e3 /= g2 g4 /= f2 f4.
Qed.

Lemma scenario_choose_pairs :
  choose_pairs (init cfg2) contexts_scenario 1%Zs 1%Zs = Ok [:: (0, 2)%N].
Proof. by rewrite /choose_pairs candidates_cfg2 /= scenario_sorted. Qed.

Lemma tied_choose_pairs :
  choose_pairs (init cfg2) contexts_tied 1%Zs 1%Zs = Ok [:: (1, 2)%N].
Proof.
by rewrite /choose_pairs candidates_cfg2 /= /sort /= /cand_ge /cand_lt !eqxx /= !eqxx.
Qed.

Lemma tied_choose_pairs_stable :
  choose_pairs_stable (init cfg2) contexts_tied 1%Zs 1%Zs = Ok [:: (0, 1)%N].
Proof.
have e : Rltb (norm2 [:: 1%Re; 1%Re]) (norm2 [:: 1%Re; 1%Re]) = false.
  by apply/RltbP; apply: Rlt_irrefl.
by rewrite /choose_pairs_stable candidates_cfg2 /= /sort /= /ucb_ge /= e /= ?e /= ?e.
Qed.

(* In the sorted candidate list, a tie on the score is ordered by the pair. *)
Lemma sorted_ties (cs : seq candidate) (c0 : candidate) (p q : nat) :
  uniq (map pair_of cs) -> (p < q < size cs)%N ->
  (nth c0 (sort cand_ge cs) p).1.1 = (nth c0 (sort cand_ge cs) q).1.1 ->
  pair_lt (pair_of (nth c0 (sort cand_ge cs) q)) (pair_of (nth c0 (sort cand_ge cs) p)).
Proof.
move=> huniq /andP [ltpq ltq].
have hsz : size (sort cand_ge cs) = size cs by rewrite size_sort.
have hsorted : sorted cand_ge (sort cand_ge cs) by apply: sort_sorted; apply: cand_ge_total.
have ltp : (p < size cs)%N by apply: ltn_trans ltq.
have := sorted_ltn_nth cand_ge_trans c0 hsorted.
move/(_ p q); rewrite !inE hsz => /(_ ltp ltq ltpq) hge.
have hu : uniq (map pair_of (sort cand_ge cs)).
  by rewrite (perm_uniq (perm_map pair_of (permEl (perm_sort cand_ge cs)))).
have hne : pair_of (nth c0 (sort cand_ge cs) p) != pair_of (nth c0 (sort cand_ge cs) q).
  rewrite -!(nth_map c0 (pair_of c0)) ?hsz // nth_uniq ?size_map ?hsz //.
  by rewrite neq_ltn ltpq.
move: hge (pair_lt_total hne).
case: (nth c0 _ p) => [[u1 i1] j1]; case: (nth c0 _ q) => [[u2 i2] j2] /= hge htot e.
move: hge; rewrite e /cand_ge (cand_lt_tie u2 (i1, j1) (i2, j2)) => hge.
by move: htot; rewrite (negbTE hge).
Qed.

(* itertools.combinations yields the pairs in increasing order. *)
Lemma combinations2_sorted (n : nat) : sorted pair_lt (combinations2 n).
Proof.
rewrite (sorted_pairwise pair_lt_trans).
rewrite /combinations2.
have : pairwise ltn (iota 0 n) by rewrite -(sorted_pairwise ltn_trans) iota_ltn_sorted.
elim: (iota 0 n) => [|i s IH] //= /andP [hi hs].
rewrite pairwise_cat IH // andbT pairwise_map.
apply/andP; split.
  apply/allrelP => -[i1 j1] [i2 j2] /mapP [j _ [-> ->]] /allpairsPdep [i' [j' [hi' _ [-> ->]]]].
  by rewrite /pair_lt /=; move/allP: hi => /(_ _ hi') h; rewrite (ltn_eqF h).
have: pairwise ltn (iota i.+1 (n - i.+1)).
  by rewrite -(sorted_pairwise ltn_trans) iota_ltn_sorted.
by apply: sub_pairwise => a c; rewrite /pair_lt /= eqxx.
Qed.

(* --------------------------------------------------------------------- *)
(*  Rounding: a state of the float32 code whose matrix is singular       *)
(* --------------------------------------------------------------------- *)

Lemma float32_large_update :
  Float32.update (Float32.init 2 (Float32.of_Z 1) (Float32.of_Z 1))
    [:: Float32.of_Z 10000; Float32.of_Z 10000] (Float32.of_Z 0)
  = Ok float32_flat.
Proof. by vm_compute. Qed.

Lemma float32_large_value : float_to_R (Float32.of_Z 100000000) = 100000000%Re.
Proof.
have -> : Float32.of_Z 100000000 = SpecFloat.S754_finite false 12500000 3.
  by vm_compute.
rewrite /float_to_R /powerRZ /=; stdR; Lra.lra.
Qed.

Lemma float32_flat_entries (i j : 'I_2) :
  A (real_state 2 float32_flat) i j = 100000000%Re.
Proof.
rewrite /real_state /= mxE -float32_large_value.
by case: i => [[|[|i]] hi] //; case: j => [[|[|j]] hj].
Qed.

Lemma float32_flat_det : \det (A (real_state 2 float32_flat)) = 0.
Proof.
apply: (@determinant_alternate _ _ _ 0 1) => // j.
by rewrite !float32_flat_entries.
Qed.

Lemma float32_flat_singular : A (real_state 2 float32_flat) \notin unitmx.
Proof. by rewrite unitmxE float32_flat_det unitr0. Qed.

Lemma float64_large_rounds :
  Float64.of_Z (Z.max 1 (2 ^ 53 + 1)) = Float64.of_Z (Z.max 1 (2 ^ 53)).
Proof. by vm_compute. Qed.

(* ===================================================================== *)
(*  Properties of the bandit                                             *)
(* ===================================================================== *)

(** C3: the pairs returned by choose_pairs share no participant index, and
    there are at most k_pairs of them (none when k_pairs is negative) and at
    most floor(n/2), n the number of contexts. *)
Theorem choose_pairs_disjoint_bounded (d : nat) (self : LinUCB d)
    (profiles : seq (seq R)) (k_pairs rnd : Z) (pairs : seq (nat * nat)) :
  choose_pairs self profiles k_pairs rnd = Ok pairs ->
  [/\ uniq (indices pairs),
      (Z.of_nat (size pairs) <= Z.max 0 k_pairs)%Zs,
      (0 <= k_pairs)%Zs -> (Z.of_nat (size pairs) <= k_pairs)%Zs
    & (size pairs <= size profiles %/ 2)%N].
Proof.
rewrite /choose_pairs.
case e: (candidates_of _ _ _) => [cs|] //= [<-].
have hr : all (in_range (size profiles)) (sort cand_ge cs).
  by rewrite all_sort; apply: in_range_candidates (candidates_of_pairs e).
have [hu hk hn] := select_pairs_spec k_pairs hr.
by split=> // k0; lia.
Qed.

Lemma choose_pairs_disjoint_bounded_witness :
  [/\ uniq (indices [:: (0, 2)%N]),
      (Z.of_nat (size [:: (0, 2)%N]) <= Z.max 0 1)%Zs,
      (0 <= 1)%Zs -> (Z.of_nat (size [:: (0, 2)%N]) <= 1)%Zs
    & (size [:: (0, 2)%N] <= size contexts_scenario %/ 2)%N].
Proof.
apply: (@choose_pairs_disjoint_bounded 2 (init cfg2) contexts_scenario 1%Zs 1%Zs).
exact: scenario_choose_pairs.
Defined.








(** C4: after update(x, r) with x of length d, A_new = A_old + x x^T and
    b_new = b_old + r x, entry by entry, and nothing else in the state
    changes (lam and beta0 are kept; d is fixed by the type of the state). *)
Theorem update_exact (d : nat) (self : LinUCB d) (x : seq R) (r : R) :
  size x = d ->
  exists self' : LinUCB d,
    [/\ update self x r = Ok self',
        forall i j : 'I_d, A self' i j = A self i j + nth 0 x i * nth 0 x j,
        forall i : 'I_d, b self' i 0 = b self i 0 + r * nth 0 x i,
        lam self' = lam self
      & beta0 self' = beta0 self].
Proof.
move=> hsz; exists (updated self x r); split=> //; first exact: update_ok.
  by move=> i j; rewrite /= !mxE big_ord1 !mxE.
by move=> i; rewrite /= !mxE.
Qed.

Lemma update_exact_witness :
  exists self' : LinUCB 2,
    [/\ update (init cfg2) [:: 3; 4] 2 = Ok self',
        forall i j : 'I_2, A self' i j = A (init cfg2) i j + nth 0 [:: 3; 4] i * nth 0 [:: 3; 4] j,
        forall i : 'I_2, b self' i 0 = b (init cfg2) i 0 + 2 * nth 0 [:: 3; 4] i,
        lam self' = lam (init cfg2)
      & beta0 self' = beta0 (init cfg2)].
Proof. by apply: (@update_exact 2 (init cfg2) [:: 3; 4] 2). Defined.

(** C6 (in exact arithmetic): for lambda > 0 and any finite sequence of
    update calls with vectors of length d, every call succeeds and the
    matrix lambda I + sum x x^T the updates accumulate is symmetric and
    positive-definite, hence invertible, with determinant > 0. The float32
    array the code stores is this matrix rounded at every addition. *)
Theorem updates_keep_spd (config : LinUCBConfig) (obs : seq (seq R * R)) :
  Rlt 0 (cfg_lam config) ->
  all (fun o => size o.1 == cfg_d config) obs ->
  exists self : LinUCB (cfg_d config),
    [/\ run_updates (init config) obs = Ok self,
        symmetric (A self),
        posdef (A self),
        A self \in unitmx
      & Rlt 0 (\det (A self))].
Proof.
case: config => d lam0 beta /= hlam hobs.
have [self e hspd] := run_updates_spd (spd_init d beta hlam) hobs.
exists self; case: (hspd) => hs pd hdet; split=> //.
exact: posdef_unitmx.
Qed.

Lemma updates_keep_spd_witness :
  exists self : LinUCB 2,
    [/\ run_updates (init cfg2) [:: ([:: 3; 4], 2); ([:: 0; 1], 1)] = Ok self,
        symmetric (A self),
        posdef (A self),
        A self \in unitmx
      & Rlt 0 (\det (A self))].
Proof.
apply: (@updates_keep_spd cfg2 [:: ([:: 3; 4], 2); ([:: 0; 1], 1)]) => //.
exact: Rlt_0_1.
Defined.

(** C6, counterexample: with lam = 1 > 0 and d = 2, the one call
    update([1e4, 1e4], 0) succeeds and leaves the float32 matrix A with
    all four entries equal to 1e8 (1 + 1e8 is rounded to 1e8): A is not
    positive-definite and not invertible, and its determinant is 0. *)
Lemma float32_update_loses_definiteness :
  exists s : Float32.LinUCB,
    [/\ Float32.update (Float32.init 2 (Float32.of_Z 1) (Float32.of_Z 1))
          [:: Float32.of_Z 10000; Float32.of_Z 10000] (Float32.of_Z 0) = Ok s,
        forall i j : 'I_2, A (real_state 2 s) i j = 100000000%Re,
        ~ posdef (A (real_state 2 s)),
        A (real_state 2 s) \notin unitmx
      & \det (A (real_state 2 s)) = 0].
Proof.
exists float32_flat; split.
- exact: float32_large_update.
- exact: float32_flat_entries.
- by move/posdef_unitmx; apply/negP; apply: float32_flat_singular.
- exact: float32_flat_singular.
- exact: float32_flat_det.
Qed.

(* The two in-place additions of update accept the same shapes: when the
   one on A succeeds so does the one on b, and update never raises with A
   already changed. *)
Lemma update_atomic (d : nat) (self : LinUCB d) (x : seq R) (r : R) :
  is_ok (matmul (column x) (transpose (column x)) >>= iadd (A self)) ->
  is_ok (update self x r).
Proof.
have [/eqP hd | hd] := boolP (size x == d); first by rewrite update_ok.
have [h1 | h1] := boolP (size x == 1%N).
  by case: x h1 {hd} => [|x0 [|? ?]] // _; rewrite update_stretch.
by rewrite /matmul /= /iadd /= /broadcasts_to (negbTE hd) (negbTE h1).
Qed.




(** C5 (as the code has it): in a state whose stored A is symmetric and
    positive-definite, with beta0 > 0, for a context vector x of length d
    (the concatenated vector of a candidate pair, or the argument of
    ucb_score), the score is mu + beta * conf with mu = theta^T x and
    conf = sqrt(x^T A^-1 x) independent of the round; the exploration term
    beta * conf, beta = beta0 / sqrt(max(1, round)), does not increase with
    the round and is constant at the floor (rounds <= 1); in exact
    arithmetic it is strictly smaller at r2 than at r1 when 1 <= r1 < r2
    and x is not the zero vector. *)
Theorem exploration_decay (d : nat) (self : LinUCB d) (x : seq R) :
  symmetric (A self) -> posdef (A self) -> Rlt 0 (beta0 self) -> size x = d ->
  exists (A_inv : 'M[R]_d) (theta : 'cV[R]_d) (mu conf : R),
    [/\ [/\ linalg_inv (A self) = Ok A_inv,
            _theta self = Ok theta,
            mu_of theta (column x) = Ok mu,
            conf_of A_inv (column x) = Ok conf
          & conf = sqrt (quad (invmx (A self)) (colv d x))],
        forall rnd, ucb_score self x rnd = Ok (mu + beta_of self rnd * conf),
        forall profiles i j rnd,
          profiles_fit d profiles -> (i, j) \in combinations2 (size profiles) ->
          nth [::] profiles i ++ nth [::] profiles j = x ->
          exists2 cs, candidates_of self profiles rnd = Ok cs
                    & (mu + beta_of self rnd * conf, i, j) \in cs,
        (forall r1 r2, (r1 <= r2)%Zs ->
           Rle (beta_of self r2 * conf) (beta_of self r1 * conf))
        /\ (forall r1 r2, (r1 <= 1)%Zs -> (r2 <= 1)%Zs ->
              beta_of self r1 * conf = beta_of self r2 * conf)
      & forall r1 r2, (1 <= r1 < r2)%Zs -> nonzero x ->
          Rlt (beta_of self r2 * conf) (beta_of self r1 * conf)].
Proof.
move=> hs pd hb hsz; have hu := posdef_unitmx pd.
exists (invmx (A self)), (invmx (A self) *m b self).
exists (((invmx (A self) *m b self)^T *m colv d x) 0 0).
exists (sqrt (quad (invmx (A self)) (colv d x))).
split.
- split=> //; first by rewrite /linalg_inv hu.
  + by rewrite /_theta /linalg_solve hu.
  + exact: mu_of_ok.
  + exact: conf_of_ok.
- by move=> rnd; apply: ucb_score_ok.
- move=> profiles i j rnd hfit hij hx.
  exists (map (scored self profiles rnd) (combinations2 (size profiles))).
    exact: candidates_of_ok.
  by apply/mapP; exists (i, j) => //; rewrite /scored /= hx.
- split=> [r1 r2 h | r1 r2 h1 h2]; last by rewrite (beta_of_floor self h1 h2).
  apply: Rmult_le_compat_r; first exact: sqrt_pos.
  by apply: beta_of_le => //; apply: Rlt_le.
- move=> r1 r2 h hx; apply: Rmult_lt_compat_r; last exact: beta_of_lt.
  by apply: sqrt_lt_R0; apply: posdef_inv => //; apply: colv_neq0.
Qed.

Lemma exploration_decay_witness :
  exists (A_inv : 'M[R]_2) (theta : 'cV[R]_2) (mu conf : R),
    [/\ [/\ linalg_inv (A (init cfg2)) = Ok A_inv,
            _theta (init cfg2) = Ok theta,
            mu_of theta (column [:: 1; 0]) = Ok mu,
            conf_of A_inv (column [:: 1; 0]) = Ok conf
          & conf = sqrt (quad (invmx (A (init cfg2))) (colv 2 [:: 1; 0]))],
        forall rnd, ucb_score (init cfg2) [:: 1; 0] rnd
                    = Ok (mu + beta_of (init cfg2) rnd * conf),
        forall profiles i j rnd,
          profiles_fit 2 profiles -> (i, j) \in combinations2 (size profiles) ->
          nth [::] profiles i ++ nth [::] profiles j = [:: 1; 0] ->
          exists2 cs, candidates_of (init cfg2) profiles rnd = Ok cs
                    & (mu + beta_of (init cfg2) rnd * conf, i, j) \in cs,
        (forall r1 r2, (r1 <= r2)%Zs ->
           Rle (beta_of (init cfg2) r2 * conf) (beta_of (init cfg2) r1 * conf))
        /\ (forall r1 r2, (r1 <= 1)%Zs -> (r2 <= 1)%Zs ->
              beta_of (init cfg2) r1 * conf = beta_of (init cfg2) r2 * conf)
      & forall r1 r2, (1 <= r1 < r2)%Zs -> nonzero [:: 1; 0] ->
          Rlt (beta_of (init cfg2) r2 * conf) (beta_of (init cfg2) r1 * conf)].
Proof.
apply: (@exploration_decay 2 (init cfg2) [:: 1; 0]) => //.
- exact: symmetric_scalar.
- by apply: posdef_scalar; apply: Rlt_0_1.
- exact: Rlt_0_1.
Defined.

(** C5, counterexample: the code computes beta in binary64, where the
    rounds 2^53 and 2^53 + 1 are the same number: for every beta0 and every
    confidence width the exploration term is the same at both rounds, not
    strictly smaller at the later one (shown also at beta0 = 1.25,
    conf = 1). *)
Lemma exploration_not_strict_in_float64 :
  let r1 := (2 ^ 53)%Zs in
  let r2 := (2 ^ 53 + 1)%Zs in
  [/\ (1 <= r1 < r2)%Zs,
      forall beta conf : SpecFloat.spec_float,
        Float64.exploration beta conf r2 = Float64.exploration beta conf r1
    & Float64.ltb
        (Float64.exploration (Float64.div (Float64.of_Z 5) (Float64.of_Z 4))
           (Float64.of_Z 1) r2)
        (Float64.exploration (Float64.div (Float64.of_Z 5) (Float64.of_Z 4))
           (Float64.of_Z 1) r1)
      = false].
Proof.
move=> r1 r2; split; first by rewrite /r1 /r2; lia.
  by move=> beta conf; rewrite /Float64.exploration /Float64.beta_of float64_large_rounds.
by vm_compute.
Qed.

(** C8: with d = 2, lambda = 1, beta0 = 1, the initial state (A = I, b = 0),
    contexts [[1],[0],[1/2]], k_pairs = 1 and round = 1: theta = 0, so mu = 0
    for every candidate; beta = 1 and the confidence term of a candidate is
    the Euclidean norm of its concatenated vector; the pair (0, 2), of
    vector [1, 1/2], has the largest norm and choose_pairs returns it alone. *)
Theorem scenario_selects_first_and_third :
  [/\ A (init cfg2) = 1%:M /\ b (init cfg2) = 0,
      _theta (init cfg2) = Ok 0 /\ beta_of (init cfg2) 1%Zs = 1,
      forall a c : R,
        mu_of (0 : 'cV[R]_2) (column [:: a; c]) = Ok 0
        /\ conf_of (invmx (A (init cfg2))) (column [:: a; c]) = Ok (norm2 [:: a; c]),
      candidates_of (init cfg2) contexts_scenario 1%Zs
        = Ok [:: (norm2 [:: 1%Re; 0%Re], 0%N, 1%N);
                 (norm2 [:: 1%Re; (1 / 2)%Re], 0%N, 2%N);
                 (norm2 [:: 0%Re; (1 / 2)%Re], 1%N, 2%N)]
    & Rlt (norm2 [:: 1%Re; 0%Re]) (norm2 [:: 1%Re; (1 / 2)%Re])
      /\ Rlt (norm2 [:: 0%Re; (1 / 2)%Re]) (norm2 [:: 1%Re; (1 / 2)%Re])]
  /\ choose_pairs (init cfg2) contexts_scenario 1%Zs 1%Zs = Ok [:: (0, 2)%N].
Proof.
have [h1 h2] := scenario_norms.
split; last exact: scenario_choose_pairs.
split.
- by split; first exact: init_cfg2_A.
- split; last exact: beta_of_cfg2.
  by rewrite /_theta /linalg_solve init_cfg2_unit /= mulmx0.
- move=> a c; split.
    by rewrite mu_of_ok // trmx0 mul0mx mxE.
  by rewrite conf_of_ok // init_cfg2_A invmx1 quad_colv2.
- exact: candidates_cfg2.
- by split=> //; apply: Rlt_trans h2 h1.
Qed.

(** C1 (as the code has it): the candidates are enumerated in increasing
    order of (i, j) and choose_pairs walks them sorted by the tuple
    (ucb, i, j), descending; so among candidates of equal ucb the pair with
    the larger (i, j), enumerated later, comes first. The selection is a
    function of the state, the contexts, k and the round. *)
Theorem ties_broken_by_descending_pair (d : nat) (self : LinUCB d)
    (profiles : seq (seq R)) (rnd : Z) (cs : seq candidate) (c0 : candidate) :
  candidates_of self profiles rnd = Ok cs ->
  [/\ map pair_of cs = combinations2 (size profiles)
      /\ sorted pair_lt (combinations2 (size profiles)),
      forall k_pairs,
        choose_pairs self profiles k_pairs rnd
          = Ok (select_pairs k_pairs (sort cand_ge cs)),
      perm_eq (sort cand_ge cs) cs
    & forall p q, (p < q < size cs)%N ->
        (nth c0 (sort cand_ge cs) p).1.1 = (nth c0 (sort cand_ge cs) q).1.1 ->
        pair_lt (pair_of (nth c0 (sort cand_ge cs) q))
                (pair_of (nth c0 (sort cand_ge cs) p))].
Proof.
move=> e; have hp := candidates_of_pairs e; split.
- by split=> //; apply: combinations2_sorted.
- by move=> k; rewrite /choose_pairs e.
- by rewrite perm_sort.
- move=> p q hpq; apply: sorted_ties => //.
  by rewrite hp combinations2_uniq.
Qed.

Lemma ties_broken_by_descending_pair_witness :
  let cs := [:: (norm2 [:: 1%Re; 1%Re], 0%N, 1%N); (norm2 [:: 1%Re; 1%Re], 0%N, 2%N);
                (norm2 [:: 1%Re; 1%Re], 1%N, 2%N)] in
  let c0 : candidate := (0, 0%N, 0%N) in
  [/\ map pair_of cs = combinations2 (size contexts_tied)
      /\ sorted pair_lt (combinations2 (size contexts_tied)),
      forall k_pairs,
        choose_pairs (init cfg2) contexts_tied k_pairs 1%Zs
          = Ok (select_pairs k_pairs (sort cand_ge cs)),
      perm_eq (sort cand_ge cs) cs
    & forall p q, (p < q < size cs)%N ->
        (nth c0 (sort cand_ge cs) p).1.1 = (nth c0 (sort cand_ge cs) q).1.1 ->
        pair_lt (pair_of (nth c0 (sort cand_ge cs) q))
                (pair_of (nth c0 (sort cand_ge cs) p))].
Proof.
move=> cs c0.
apply: (@ties_broken_by_descending_pair 2 (init cfg2) contexts_tied 1%Zs cs c0).
exact: candidates_cfg2.
Defined.

(** C1, counterexample: the three candidates of contexts [[1],[1],[1]] have
    the same ucb; choose_pairs returns the pair enumerated last, (1, 2),
    where breaking the tie by enumeration order returns (0, 1). *)
Lemma tie_not_broken_by_enumeration_order :
  [/\ candidates_of (init cfg2) contexts_tied 1%Zs
        = Ok [:: (norm2 [:: 1%Re; 1%Re], 0%N, 1%N); (norm2 [:: 1%Re; 1%Re], 0%N, 2%N);
                 (norm2 [:: 1%Re; 1%Re], 1%N, 2%N)],
      choose_pairs (init cfg2) contexts_tied 1%Zs 1%Zs = Ok [:: (1, 2)%N],
      choose_pairs_stable (init cfg2) contexts_tied 1%Zs 1%Zs = Ok [:: (0, 1)%N]
    & choose_pairs (init cfg2) contexts_tied 1%Zs 1%Zs
        <> choose_pairs_stable (init cfg2) contexts_tied 1%Zs 1%Zs].
Proof.
split; first exact: candidates_cfg2.
- exact: tied_choose_pairs.
- exact: tied_choose_pairs_stable.
- by rewrite tied_choose_pairs tied_choose_pairs_stable.
Qed.

Import SplitSerializer.

(* --------------------------------------------------------------------- *)
(*  The split allocator                                                  *)
(* --------------------------------------------------------------------- *)

Section SplitLemmas.

Lemma dedup_spec (seen : seq string) (combined : seq item) :
  uniq [seq item_id x | x <- dedup seen combined]
  /\ {in [seq item_id x | x <- dedup seen combined], forall k, k \notin seen}.
Proof.
elim: combined seen => [|x xs IH] seen //=.
case: ifP => [_ | /negbT hx]; first exact: IH.
have [hu hs] := IH (item_id x :: seen); split=> /=.
  rewrite hu andbT; apply/negP => /hs.
  by rewrite inE eqxx.
move=> k; rewrite inE => /orP [/eqP -> // | /hs].
by rewrite inE negb_or => /andP [].
Qed.

Lemma combine_ids_uniq (he_items mb_items : seq json_object) :
  uniq [seq item_id x | x <- _combine_with_ids he_items mb_items].
Proof.
rewrite /_combine_with_ids; set combined := _ ++ _.
by have [] := dedup_spec [::] combined.
Qed.

Lemma py_slice_nat (T : Type) (pool : seq T) (s q : nat) :
  (s + q <= size pool)%N ->
  py_slice pool (Z.of_nat s) (Z.of_nat s + Z.of_nat q) = take q (drop s pool).
Proof.
move=> /leP; rewrite -plusE => h; rewrite /py_slice /slice_bound.
case: Z.ltb_spec => h1; first by lia.
case: Z.ltb_spec => h2; first by lia.
have -> : Z.min (Z.of_nat s) (Z.of_nat (size pool)) = Z.of_nat s by lia.
have -> : (Z.min (Z.of_nat s + Z.of_nat q) (Z.of_nat (size pool)) - Z.of_nat s)%Zs = Z.of_nat q.
  by lia.
by rewrite !Nat2Z.id.
Qed.

Lemma dict_set_fresh (V : Type) (m : dict V) (k : string) (v : V) :
  k \notin [seq kv.1 | kv <- m] -> dict_set m k v = rcons m (k, v).
Proof.
elim: m => [|kv m IH] //=; rewrite inE negb_or eq_sym => /andP [/negbTE -> hk].
by rewrite IH.
Qed.

Lemma flatten_chunks (pool : seq string) (s : nat) (qs : seq nat) :
  flatten (chunks pool s qs) = take (sumn qs) (drop s pool).
Proof.
elim: qs s => [|q qs IH] s /=; first by rewrite take0.
by rewrite IH takeD drop_drop [(q + s)%N]addnC.
Qed.

Lemma size_chunks (pool : seq string) (s : nat) (qs : seq nat) :
  (s + sumn qs <= size pool)%N -> map size (chunks pool s qs) = qs.
Proof.
elim: qs s => [|q qs IH] s //=; rewrite addnA => h.
have h1 : (s + q <= size pool)%N by apply: leq_trans h; rewrite leq_addr.
have hs : (s <= size pool)%N by apply: leq_trans h1; rewrite leq_addr.
by rewrite IH // size_takel // size_drop leq_subRL.
Qed.

Lemma size_chunks_eq (pool : seq string) (s : nat) (qs : seq nat) :
  size (chunks pool s qs) = size qs.
Proof. by elim: qs s => [|q qs IH] s //=; rewrite IH. Qed.

Lemma sumz_nat (quota : client -> Z) (roster : seq client) :
  all (fun c => 0 <=? quota c)%Zs roster ->
  sumz [seq quota c | c <- roster] = Z.of_nat (sumn (nat_quotas quota roster)).
Proof.
elim: roster => [|c r IH] //= /andP [/Z.leb_le h0 hr].
by rewrite IH // -plusE Nat2Z.inj_add Z2Nat.id.
Qed.

Lemma all_fresh_rcons (V : Type) (m : dict V) (k : string) (v : V) (r : seq client) :
  k \notin [seq client_id c | c <- r] ->
  all (fun c => client_id c \notin [seq kv.1 | kv <- m]) r ->
  all (fun c => client_id c \notin [seq kv.1 | kv <- rcons m (k, v)]) r.
Proof.
elim: r => //= c r IH; rewrite inE negb_or => /andP [hk hr] /andP [hc hcs].
by rewrite IH // andbT map_rcons mem_rcons inE negb_or hc andbT eq_sym.
Qed.

Lemma alloc_loop (pool : seq string) (quota : client -> Z) (roster : seq client)
    (m : dict (seq string)) (s : nat) :
  uniq [seq client_id c | c <- roster] ->
  all (fun c => client_id c \notin [seq kv.1 | kv <- m]) roster ->
  all (fun c => 0 <=? quota c)%Zs roster ->
  (s + sumn (nat_quotas quota roster) <= size pool)%N ->
  foldl (alloc_step pool quota) (m, Z.of_nat s) roster
  = (m ++ zip [seq client_id c | c <- roster] (chunks pool s (nat_quotas quota roster)),
     Z.of_nat (s + sumn (nat_quotas quota roster))).
Proof.
elim: roster m s => [|c r IH] m s /=; first by rewrite cats0 addn0.
case/andP => hc hu /andP [hm hms] /andP [/Z.leb_le h0 hq]; rewrite addnA => hsz.
have hle : (s + Z.to_nat (quota c) <= size pool)%N.
  by apply: leq_trans hsz; rewrite leq_addr.
rewrite -{1 2}(Z2Nat.id _ h0) py_slice_nat // dict_set_fresh //.
rewrite -Nat2Z.inj_add plusE IH //; last by rewrite cat_rcons.
exact: all_fresh_rcons.
Qed.

End SplitLemmas.

Section SplitTheorem.

Lemma quota_sizes (pool : seq string) (quota : client -> Z) (roster : seq client) (s : nat) :
  all (fun c => 0 <=? quota c)%Zs roster ->
  (s + sumn (nat_quotas quota roster) <= size pool)%N ->
  [seq (kv.1, Z.of_nat (size kv.2))
     | kv <- zip [seq client_id c | c <- roster] (chunks pool s (nat_quotas quota roster))]
  = [seq (client_id c, quota c) | c <- roster].
Proof.
elim: roster s => [|c r IH] s //= /andP [/Z.leb_le h0 hq]; rewrite addnA => hsz.
have h1 : (s + Z.to_nat (quota c) <= size pool)%N by apply: leq_trans hsz; rewrite leq_addr.
have hs : (s <= size pool)%N by apply: leq_trans h1; rewrite leq_addr.
by rewrite IH // size_takel ?Z2Nat.id // size_drop leq_subRL.
Qed.

Lemma values_zip (roster : seq client) (cs : seq (seq string)) :
  size cs = size roster ->
  [seq kv.2 | kv <- zip [seq client_id c | c <- roster] cs] = cs.
Proof. by move=> h; rewrite -/(unzip2 _) unzip2_zip // size_map h. Qed.

Variable shuffle : Z -> seq string -> seq string.
Hypothesis shuffle_perm : forall seed l, perm_eq (shuffle seed l) l.

(** C9: for a duplicate-free list of identifiers, a roster of clients with
    distinct identifiers and non-negative quotas, a non-negative test size
    and any seed, when the pool is large enough _alloc_splits succeeds and
    returns, as a function of its arguments, per-client train and val sets
    of exactly the requested sizes and a test set of the requested size,
    all of them pairwise disjoint and drawn from the identifiers. *)
Theorem alloc_splits_partition (combined_ids : seq string) (roster : seq client)
    (seed global_test_size : Z) :
  uniq combined_ids ->
  uniq [seq client_id c | c <- roster] ->
  all (fun c => 0 <=? train_samples c)%Zs roster ->
  all (fun c => 0 <=? val_samples c)%Zs roster ->
  (0 <= global_test_size)%Zs ->
  (sumz [seq train_samples c | c <- roster] + sumz [seq val_samples c | c <- roster]
     + global_test_size <= Z.of_nat (size combined_ids))%Zs ->
  exists (train val : dict (seq string)) (test : seq string),
    [/\ _alloc_splits shuffle combined_ids roster seed global_test_size
          = Ok (train, val, test),
        [seq (kv.1, Z.of_nat (size kv.2)) | kv <- train]
          = [seq (client_id c, train_samples c) | c <- roster],
        [seq (kv.1, Z.of_nat (size kv.2)) | kv <- val]
          = [seq (client_id c, val_samples c) | c <- roster],
        Z.of_nat (size test) = global_test_size
      & uniq (handed_out train val test)
        /\ {subset handed_out train val test <= combined_ids}].
Proof.
move=> hids hroster htrain hval hg htotal.
set pool := shuffle seed combined_ids.
have hsize : size pool = size combined_ids by apply: perm_size; apply: shuffle_perm.
have hpool : uniq pool by rewrite (perm_uniq (shuffle_perm seed combined_ids)).
set qt := nat_quotas train_samples roster; set qv := nat_quotas val_samples roster.
pose g := Z.to_nat global_test_size.
have hgE : global_test_size = Z.of_nat g by rewrite Z2Nat.id.
have hsum : (sumn qt + sumn qv + g <= size pool)%N.
  apply/leP; move: htotal; rewrite !sumz_nat // hsize hgE -/qt -/qv -!plusE.
  by lia.
have ht : (0 + sumn qt <= size pool)%N.
  by rewrite add0n; apply: leq_trans hsum; rewrite -addnA leq_addr.
have hv : (sumn qt + sumn qv <= size pool)%N by apply: leq_trans hsum; rewrite leq_addr.
have all0 : all (fun c => client_id c \notin [seq kv.1 | kv <- ([::] : dict (seq string))]) roster.
  by elim: (roster).
exists (zip [seq client_id c | c <- roster] (chunks pool 0 qt)).
exists (zip [seq client_id c | c <- roster] (chunks pool (sumn qt) qv)).
exists (take g (drop (sumn qt + sumn qv) pool)).
split.
- rewrite /_alloc_splits -/pool !sumz_nat // -/qt -/qv.
  case: Z.ltb_spec => [hlt|_].
    by move/leP: hsum; rewrite hgE -!plusE in hlt *; lia.
  rewrite (alloc_loop (s := 0) hroster all0 htrain ht) /= add0n.
  rewrite (alloc_loop hroster all0 hval hv) /=.
  by rewrite hgE py_slice_nat.
- exact: quota_sizes.
- exact: quota_sizes.
- rewrite size_takel ?Z2Nat.id // size_drop leq_subRL //.
- have -> : handed_out (zip [seq client_id c | c <- roster] (chunks pool 0 qt))
              (zip [seq client_id c | c <- roster] (chunks pool (sumn qt) qv))
              (take g (drop (sumn qt + sumn qv) pool))
            = take (sumn qt + sumn qv + g) pool.
    rewrite /handed_out !values_zip ?size_chunks_eq ?size_map // !flatten_chunks.
    by rewrite drop0 -addnA !takeD drop_drop [(sumn qv + _)%N]addnC.
  split; first exact: take_uniq.
  by move=> x /mem_take; rewrite (perm_mem (shuffle_perm seed combined_ids)).
Qed.

End SplitTheorem.

Lemma alloc_splits_partition_witness :
  let ids := [:: "a"; "b"; "c"; "d"; "e"]%string in
  let roster := [:: Client "c1" 1 1; Client "c2" 2 0] in
  exists (train val : dict (seq string)) (test : seq string),
    [/\ _alloc_splits (fun _ l => rev l) ids roster 42%Zs 1%Zs = Ok (train, val, test),
        [seq (kv.1, Z.of_nat (size kv.2)) | kv <- train]
          = [seq (client_id c, train_samples c) | c <- roster],
        [seq (kv.1, Z.of_nat (size kv.2)) | kv <- val]
          = [seq (client_id c, val_samples c) | c <- roster],
        Z.of_nat (size test) = 1%Zs
      & uniq (handed_out train val test)
        /\ {subset handed_out train val test <= ids}].
Proof.
move=> ids roster.
apply: (@alloc_splits_partition (fun _ l => rev l) _ ids roster 42%Zs 1%Zs) => //.
by move=> seed l; rewrite perm_rev.
Defined.

(* ===================================================================== *)
(*  Further properties of the bandit                                     *)
(* ===================================================================== *)

Section MoreSelection.

Lemma select_step_sub (k : Z) (acc : seq (nat * nat) * seq nat) (c : candidate) :
  {subset (select_step k acc c).1 <= rcons acc.1 (pair_of c)}.
Proof.
case: acc c => pairs used [[u i] j] /=; case: ifP => _ p /=; last first.
  by rewrite mem_rcons inE => ->; rewrite orbT.
by [].
Qed.

Lemma select_loop_sub (k : Z) (cs : seq candidate) (acc : seq (nat * nat) * seq nat) :
  {subset (foldl (select_step k) acc cs).1 <= acc.1 ++ map pair_of cs}.
Proof.
elim: cs acc => [|c cs IH] acc p /=; first by rewrite cats0.
move/IH; rewrite mem_cat => /orP [/select_step_sub | h].
  by rewrite mem_rcons !inE mem_cat inE => /orP [-> | ->]; rewrite ?orbT.
by rewrite mem_cat inE h !orbT.
Qed.

(* The pairs accepted so far stay at the front of the result. *)
Lemma select_loop_prefix (k : Z) (cs : seq candidate) (acc : seq (nat * nat) * seq nat) :
  exists rest, (foldl (select_step k) acc cs).1 = acc.1 ++ rest.
Proof.
elim: cs acc => [|c cs IH] acc /=; first by exists [::]; rewrite cats0.
have [rest ->] := IH (select_step k acc c).
case: acc c => pairs used [[u i] j] /=; case: ifP => _ /=; last by exists rest.
by exists ((i, j) :: rest); rewrite cat_rcons.
Qed.

End MoreSelection.

Section MoreCandidates.

Variable d : nat.
Implicit Type self : LinUCB d.

Lemma score_pair_outcome beta (A_inv : 'M[R]_d) theta profiles (ij : nat * nat) :
  score_pair beta A_inv theta profiles ij
  = if size (nth [::] profiles ij.1 ++ nth [::] profiles ij.2) == d
    then Ok (((theta^T *m colv d (nth [::] profiles ij.1 ++ nth [::] profiles ij.2)) 0 0
              + beta * sqrt (quad A_inv (colv d (nth [::] profiles ij.1 ++ nth [::] profiles ij.2))),
              ij.1, ij.2))
    else Raise ValueError.
Proof.
rewrite /score_pair; case: eqP => [h | /eqP h]; first by rewrite mu_of_ok // conf_of_ok.
by rewrite mu_of_mismatch.
Qed.

Lemma mapM_score_pair_mismatch beta (A_inv : 'M[R]_d) theta profiles (s : seq (nat * nat)) :
  ~~ all (fun ij => size (nth [::] profiles ij.1 ++ nth [::] profiles ij.2) == d) s ->
  mapM (score_pair beta A_inv theta profiles) s = Raise ValueError.
Proof.
elim: s => [|ij s IH] //=; rewrite score_pair_outcome.
by case: eqP => //= _ /IH ->.
Qed.

Lemma candidates_of_mismatch self profiles rnd :
  A self \in unitmx -> ~~ profiles_fit d profiles ->
  candidates_of self profiles rnd = Raise ValueError.
Proof.
move=> hu hfit; rewrite /candidates_of /_theta /linalg_inv /linalg_solve hu /=.
exact: mapM_score_pair_mismatch.
Qed.

End MoreCandidates.

Lemma pairs_in_range (d : nat) (self : LinUCB d) (profiles : seq (seq R)) (k rnd : Z)
    (pairs : seq (nat * nat)) :
  choose_pairs self profiles k rnd = Ok pairs ->
  all (fun p => p.1 < p.2 < size profiles)%N pairs.
Proof.
rewrite /choose_pairs; case e: (candidates_of _ _ _) => [cs|] //= [<-].
apply/allP => -[i j] /select_loop_sub /=.
rewrite -mem_combinations2 -(candidates_of_pairs e) => /mapP [c hc ->].
by apply/mapP; exists c => //; rewrite -(mem_sort cand_ge).
Qed.

(** X1: every pair (i, j) returned by choose_pairs satisfies i < j < n, n
    the number of contexts: the indices are valid positions of the contexts
    list and a pair never matches a participant with itself. *)
Theorem choose_pairs_in_range (d : nat) (self : LinUCB d)
    (profiles : seq (seq R)) (k_pairs rnd : Z) (pairs : seq (nat * nat)) :
  choose_pairs self profiles k_pairs rnd = Ok pairs ->
  all (fun p => p.1 < p.2 < size profiles)%N pairs.
Proof. exact: pairs_in_range. Qed.

Lemma choose_pairs_in_range_witness :
  all (fun p => p.1 < p.2 < size contexts_scenario)%N [:: (0, 2)%N].
Proof.
apply: (@choose_pairs_in_range 2 (init cfg2) contexts_scenario 1%Zs 1%Zs).
exact: scenario_choose_pairs.
Defined.


(** X3: a bandit configured with lam = 0 and d >= 1 starts with a singular
    matrix: before any update, choose_pairs and ucb_score raise the
    singular-matrix error on every input. *)
Theorem zero_regularisation_is_singular (d : nat) (beta : R)
    (profiles : seq (seq R)) (x : seq R) (k_pairs rnd : Z) :
  (0 < d)%N ->
  let self := init {| cfg_d := d; cfg_lam := 0%Re; cfg_beta0 := beta |} in
  choose_pairs self profiles k_pairs rnd = Raise LinAlgError
  /\ ucb_score self x rnd = Raise LinAlgError.
Proof.
case: d => // d _ self.
have hs : A self \notin unitmx.
  rewrite /self /= unitmxE unitfE; have -> : (0%Re : R) = 0%R by [].
  by rewrite scale0r det0 eqxx.
split; last exact: ucb_score_singular.
by rewrite /choose_pairs candidates_of_singular.
Qed.

Lemma zero_regularisation_is_singular_witness :
  let self := init {| cfg_d := 2; cfg_lam := 0%Re; cfg_beta0 := 1%Re |} in
  choose_pairs self [::] 1%Zs 1%Zs = Raise LinAlgError
  /\ ucb_score self [:: 1%Re; 0%Re] 1%Zs = Raise LinAlgError.
Proof. exact: (@zero_regularisation_is_singular 2 1%Re [::] [:: 1%Re; 0%Re] 1%Zs 1%Zs). Defined.

Section MoreUpdates.

Variable d : nat.
Implicit Type self : LinUCB d.

(* The state after the observations obs, all of length d. *)
Lemma run_updates_closed self (obs : seq (seq R * R)) :
  all (fun o => size o.1 == d) obs ->
  run_updates self obs
  = Ok {| lam := lam self; beta0 := beta0 self;
          A := A self + \sum_(o <- obs) colv d o.1 *m (colv d o.1)^T;
          b := b self + \sum_(o <- obs) o.2 *: colv d o.1 |}.
Proof.
elim: obs self => [|[l r] obs IH] self /=.
  by rewrite !big_nil !addr0; case: self.
case/andP => /eqP hl hobs; rewrite update_ok //= IH //= !big_cons /= !addrA.
by [].
Qed.

End MoreUpdates.

(** X4: started from __init__ and fed observations (x_t, r_t) with vectors
    of length d, the state holds the ridge-regression statistics
    A = lam I + sum_t x_t x_t^T and b = sum_t r_t x_t; with lam > 0, _theta
    returns a theta solving (lam I + sum_t x_t x_t^T) theta = sum_t r_t x_t. *)
Theorem updates_accumulate_statistics (config : LinUCBConfig) (obs : seq (seq R * R)) :
  Rlt 0 (cfg_lam config) ->
  all (fun o => size o.1 == cfg_d config) obs ->
  exists (self : LinUCB (cfg_d config)) (theta : 'cV[R]_(cfg_d config)),
    [/\ run_updates (init config) obs = Ok self,
        A self = cfg_lam config *: 1%:M
                 + \sum_(o <- obs) colv (cfg_d config) o.1 *m (colv (cfg_d config) o.1)^T,
        b self = \sum_(o <- obs) o.2 *: colv (cfg_d config) o.1,
        _theta self = Ok theta
      & A self *m theta = b self].
Proof.
case: config => d lam0 beta /= hlam hobs.
have e := run_updates_closed (init {| cfg_d := d; cfg_lam := lam0; cfg_beta0 := beta |}) hobs.
have [self' e' hspd] := run_updates_spd (spd_init d beta hlam) hobs.
have hu := spd_unitmx hspd.
move: e' hu; rewrite e => -[<-] /= hu.
eexists; exists (invmx (lam0 *: 1%:M + \sum_(o <- obs) colv d o.1 *m (colv d o.1)^T)
                 *m (0 + \sum_(o <- obs) o.2 *: colv d o.1)).
split; [by [] | by [] | by rewrite /= add0r | by rewrite /_theta /linalg_solve /= hu |].
by rewrite /= mulKVmx // add0r.
Qed.

Lemma updates_accumulate_statistics_witness :
  let obs := [:: ([:: 3%Re; 4%Re], 2%Re); ([:: 0%Re; 1%Re], 1%Re)] in
  exists (self : LinUCB 2) (theta : 'cV[R]_2),
    [/\ run_updates (init cfg2) obs = Ok self,
        A self = cfg_lam cfg2 *: 1%:M + \sum_(o <- obs) colv 2 o.1 *m (colv 2 o.1)^T,
        b self = \sum_(o <- obs) o.2 *: colv 2 o.1,
        _theta self = Ok theta
      & A self *m theta = b self].
Proof.
move=> obs; apply: (@updates_accumulate_statistics cfg2 obs) => //.
exact: Rlt_0_1.
Defined.

(** X6: update treats a one-element context vector [x0] exactly as the
    constant vector of length d with every entry x0 (numpy stretches it). *)
Theorem update_short_vector_is_constant (d : nat) (self : LinUCB d) (x0 r : R) :
  update self [:: x0] r = update self (nseq d x0) r.
Proof.
rewrite update_stretch update_ok ?size_nseq //; congr Ok.
rewrite /stretched /updated; congr Build_LinUCB.
  congr (_ + _); apply/matrixP => i j; rewrite !mxE big_ord1 !mxE.
  by rewrite !nth_nseq !ltn_ord.
by congr (_ + _); apply/matrixP => i j; rewrite !mxE nth_nseq ltn_ord.
Qed.

Section MoreScores.

Variable d : nat.
Implicit Type self : LinUCB d.

Lemma beta_of_ge0 self (rnd : Z) : Rle 0 (beta0 self) -> Rle 0 (beta_of self rnd).
Proof.
move=> hb; rewrite /beta_of /Rdiv; apply: Rmult_le_pos => //.
apply: Rlt_le; apply: Rinv_0_lt_compat.
by have := sqrt_round_ge1 rnd; Lra.lra.
Qed.

Lemma dot_colv (x : seq R) :
  size x = d -> dot (colv d x) (colv d x) = \sum_(a <- x) a * a.
Proof.
move=> hsz; rewrite /dot mxE (big_nth 0) hsz big_mkord.
by apply: eq_bigr => i _; rewrite !mxE.
Qed.

Lemma mapM_in (T U : eqType) (f : T -> result U) (s : seq T) (ys : seq U) (y : U) :
  mapM f s = Ok ys -> y \in ys -> exists2 x, x \in s & f x = Ok y.
Proof.
elim: s ys => [|x s IH] ys /=; first by case=> <-.
case ex: (f x) => [y0|] //=; case es: (mapM f s) => [ys0|] //= [<-].
rewrite inE => /orP [/eqP -> | hy]; first by exists x; rewrite ?mem_head.
by have [x' hx' e'] := IH _ es hy; exists x' => //; rewrite inE hx' orbT.
Qed.

End MoreScores.

(** X7: in a state whose stored A is positive-definite, with beta0 >= 0,
    ucb_score returns for every vector of length d, and its value is never
    below the estimated mean theta^T x: the confidence bonus is never
    negative. Floats idealised as reals. *)
Theorem ucb_score_is_optimistic (d : nat) (self : LinUCB d) (x : seq R) (rnd : Z) :
  posdef (A self) -> Rle 0 (beta0 self) -> size x = d ->
  exists (theta : 'cV[R]_d) (mu s : R),
    [/\ _theta self = Ok theta,
        mu_of theta (column x) = Ok mu,
        ucb_score self x rnd = Ok s
      & Rle mu s].
Proof.
move=> /posdef_unitmx hu hb hsz.
exists (invmx (A self) *m b self), (((invmx (A self) *m b self)^T *m colv d x) 0 0).
eexists; split.
- by rewrite /_theta /linalg_solve hu.
- exact: mu_of_ok.
- exact: ucb_score_ok.
- have h1 := beta_of_ge0 rnd hb.
  have h2 := sqrt_pos (quad (invmx (A self)) (colv d x)).
  by move: (Rmult_le_pos _ _ h1 h2); stdR; Lra.lra.
Qed.

Lemma ucb_score_is_optimistic_witness :
  exists (theta : 'cV[R]_2) (mu s : R),
    [/\ _theta (init cfg2) = Ok theta,
        mu_of theta (column [:: 3%Re; 4%Re]) = Ok mu,
        ucb_score (init cfg2) [:: 3%Re; 4%Re] 5%Zs = Ok s
      & Rle mu s].
Proof.
apply: (@ucb_score_is_optimistic 2 (init cfg2) [:: 3%Re; 4%Re] 5%Zs) => //.
  by apply: posdef_scalar; apply: Rlt_0_1.
exact: Rle_0_1.
Defined.

(** X8: before any update, with lam > 0, the score of a vector x of length d
    is beta0 / sqrt(max(1, round)) times the Euclidean norm of x divided by
    sqrt(lam): the estimated mean is 0 and only the norm of x matters. *)
Theorem initial_score_is_scaled_norm (config : LinUCBConfig) (x : seq R) (rnd : Z) :
  Rlt 0 (cfg_lam config) -> size x = cfg_d config ->
  ucb_score (init config) x rnd
  = Ok (beta_of (init config) rnd * (norm2 x / sqrt (cfg_lam config))%Re).
Proof.
case: config => d lam0 beta /= hlam hsz.
have hl : lam0 != 0 by apply/eqP => e; move: hlam; rewrite e; apply: Rlt_irrefl.
have hu : (lam0 *: 1%:M : 'M[R]_d) \in unitmx.
  by rewrite unitmxZ ?unitfE // unitmx1.
rewrite ucb_score_ok //=; congr Ok.
rewrite mulmx0 trmx0 mul0mx mxE add0r invmxZ // invmx1 quad_scalar dot_colv //.
congr (_ * _); rewrite /norm2 -sqrt_div_alt //.
by congr sqrt; rewrite /Rdiv Rmult_comm.
Qed.

Lemma initial_score_is_scaled_norm_witness :
  ucb_score (init cfg2) [:: 3%Re; 4%Re] 4%Zs
  = Ok (beta_of (init cfg2) 4%Zs * (norm2 [:: 3%Re; 4%Re] / sqrt (cfg_lam cfg2))%Re).
Proof.
apply: (@initial_score_is_scaled_norm cfg2 [:: 3%Re; 4%Re] 4%Zs) => //.
exact: Rlt_0_1.
Defined.

(** X9: the score choose_pairs gives a candidate pair (i, j) is the value
    ucb_score returns, in the same state and round, for the concatenation
    of the contexts of i and j. *)
Theorem candidate_score_is_ucb_score (d : nat) (self : LinUCB d)
    (profiles : seq (seq R)) (rnd : Z) (cs : seq candidate) (c : candidate) :
  candidates_of self profiles rnd = Ok cs -> c \in cs ->
  ucb_score self (nth [::] profiles c.1.2 ++ nth [::] profiles c.2) rnd = Ok c.1.1.
Proof.
rewrite /candidates_of /ucb_score.
case ei: (linalg_inv _) => [A_inv|] //=; case et: (_theta _) => [theta|] //= em hc.
have [[i j] _] := mapM_in em hc.
rewrite /score_pair /=.
case e1: (mu_of _ _) => [mu|] //=; case e2: (conf_of _ _) => [conf|] //= [<-] /=.
by rewrite e1 /= e2.
Qed.

Lemma candidate_score_is_ucb_score_witness :
  ucb_score (init cfg2) (nth [::] contexts_scenario 0 ++ nth [::] contexts_scenario 2) 1%Zs
  = Ok (norm2 [:: 1%Re; (1 / 2)%Re]).
Proof.
apply: (@candidate_score_is_ucb_score 2 (init cfg2) contexts_scenario 1%Zs _
          (norm2 [:: 1%Re; (1 / 2)%Re], 0%N, 2%N) (candidates_cfg2 _ _ _)).
by rewrite !inE eqxx orbT.
Defined.

Section MoreGreedy.

Lemma select_loop_used (k : Z) (cs : seq candidate) (acc : seq (nat * nat) * seq nat) :
  acc.2 =i indices acc.1 ->
  (foldl (select_step k) acc cs).2 =i indices (foldl (select_step k) acc cs).1.
Proof.
elim: cs acc => [|c cs IH] acc //= h; apply: IH.
case: acc c h => pairs used [[u i] j] /= h; case: ifP => _ //= x.
by rewrite indices_rcons mem_cat !inE h orbA orbC.
Qed.

(* Once the budget is used up the loop accepts nothing more. *)
Lemma select_loop_full (k : Z) (cs : seq candidate) (acc : seq (nat * nat) * seq nat) :
  (k <= Z.of_nat (size acc.1))%Zs -> foldl (select_step k) acc cs = acc.
Proof.
elim: cs acc => [|c cs IH] acc //= h.
have -> : select_step k acc c = acc; last exact: IH.
case: acc c h => pairs used [[u i] j] /= h.
by have -> : (Z.of_nat (size pairs) <? k)%Zs = false; [apply/Z.ltb_ge | rewrite andbF].
Qed.

Lemma cand_ge_ucb (c c' : candidate) : cand_ge c c' -> Rle c'.1.1 c.1.1.
Proof.
case: c c' => [[u i] j] [[u' i'] j'] /=; rewrite /cand_ge /cand_lt.
by case: (RcompareP u u') => h _ //; Lra.lra.
Qed.

(* The pairs selected with budget k are the first k selected with budget k'. *)
Lemma select_pairs_take (k k' : Z) (cs : seq candidate) :
  (0 <= k <= k')%Zs ->
  select_pairs k cs = take (Z.to_nat k) (select_pairs k' cs).
Proof.
move=> hk; rewrite /select_pairs.
have hU := fun kk s => @select_loop_used kk s ([::], [::]) (fun=> erefl).
elim/last_ind: cs => [|cs c IH] //=; rewrite !foldl_rcons.
move: IH (hU k cs) (hU k' cs).
case: (foldl (select_step k) _ cs) => pairs used.
case: (foldl (select_step k') _ cs) => pairs' used' /= -> hu hu'.
case: c => [[u i] j] /=.
have [hlt | hge] := Z_lt_le_dec (Z.of_nat (size pairs')) k.
  have htk : take (Z.to_nat k) pairs' = pairs'.
    by apply: take_oversize; apply/leP; lia.
  move: hu; rewrite htk => hu.
  have -> : (Z.of_nat (size pairs') <? k)%Zs by apply/Z.ltb_lt.
  have -> : (Z.of_nat (size pairs') <? k')%Zs by apply/Z.ltb_lt; lia.
  rewrite !hu !hu' !andbT; case: ifP => _ //=.
  by rewrite take_oversize // size_rcons; apply/leP; move: hlt; lia.
have hsz : size (take (Z.to_nat k) pairs') = Z.to_nat k.
  by apply: size_takel; apply/leP; lia.
have -> : (Z.of_nat (size (take (Z.to_nat k) pairs')) <? k)%Zs = false.
  by apply/Z.ltb_ge; rewrite hsz; lia.
rewrite andbF /=; case: ifP => _ //=.
by rewrite -cats1 takel_cat //; apply/leP; lia.
Qed.

End MoreGreedy.

(** X10: whenever choose_pairs returns, with k_pairs >= 1 and at least two
    contexts, the first pair it returns is a candidate of maximal score: no
    candidate pair has a larger ucb. *)
Theorem first_pair_has_maximal_score (d : nat) (self : LinUCB d)
    (profiles : seq (seq R)) (k_pairs rnd : Z)
    (cs : seq candidate) (pairs : seq (nat * nat)) :
  candidates_of self profiles rnd = Ok cs ->
  choose_pairs self profiles k_pairs rnd = Ok pairs ->
  (1 <= k_pairs)%Zs -> (2 <= size profiles)%N ->
  exists (best : candidate) (others : seq (nat * nat)),
    [/\ best \in cs,
        pairs = pair_of best :: others
      & forall c, c \in cs -> Rle c.1.1 best.1.1].
Proof.
move=> e; rewrite /choose_pairs e /= => -[<-] hk hn.
have hne : (0 < size (sort cand_ge cs))%N.
  have : (0, 1)%N \in combinations2 (size profiles) by rewrite mem_combinations2.
  by rewrite size_sort -(size_map pair_of) (candidates_of_pairs e); case: (combinations2 _).
case es: (sort cand_ge cs) hne => [|best s] // _.
have hsorted : sorted cand_ge (best :: s).
  by rewrite -es; apply: sort_sorted; apply: cand_ge_total.
have hmin := order_path_min cand_ge_trans hsorted.
have hbest : best \in cs by rewrite -(mem_sort cand_ge) es mem_head.
have [others ho] : exists others,
    select_pairs k_pairs (best :: s) = pair_of best :: others.
  rewrite /select_pairs.
  rewrite -[foldl _ _ (best :: s)]/(foldl (select_step k_pairs) (select_step k_pairs ([::], [::]) best) s).
  have -> : select_step k_pairs ([::], [::]) best = ([:: pair_of best], [:: best.1.2; best.2]).
    by case: (best) => [[u i] j] /=; have -> : (0 <? k_pairs)%Zs by apply/Z.ltb_lt; lia.
  by have [rest ->] := select_loop_prefix k_pairs s ([:: pair_of best], [:: best.1.2; best.2]); exists rest.
exists best, others; split=> //.
move=> c; rewrite -(mem_sort cand_ge) es inE => /orP [/eqP -> | hc]; first exact: Rle_refl.
by apply: cand_ge_ucb; move/allP: hmin; apply.
Qed.

Lemma first_pair_has_maximal_score_witness :
  exists (best : candidate) (others : seq (nat * nat)),
    [/\ best \in [:: (norm2 [:: 1%Re; 0%Re], 0%N, 1%N);
                     (norm2 [:: 1%Re; (1 / 2)%Re], 0%N, 2%N);
                     (norm2 [:: 0%Re; (1 / 2)%Re], 1%N, 2%N)],
        [:: (0, 2)%N] = pair_of best :: others
      & forall c, c \in [:: (norm2 [:: 1%Re; 0%Re], 0%N, 1%N);
                            (norm2 [:: 1%Re; (1 / 2)%Re], 0%N, 2%N);
                            (norm2 [:: 0%Re; (1 / 2)%Re], 1%N, 2%N)] ->
          Rle c.1.1 best.1.1].
Proof.
apply: (@first_pair_has_maximal_score 2 (init cfg2) contexts_scenario 1%Zs 1%Zs) => //.
  exact: candidates_cfg2.
exact: scenario_choose_pairs.
Defined.

(** X11: raising k_pairs only appends pairs: for 0 <= k <= k', the pairs
    choose_pairs returns for k are the first k of those it returns for k'
    (all of them when there are fewer than k). *)
Theorem choose_pairs_prefix (d : nat) (self : LinUCB d)
    (profiles : seq (seq R)) (k k' rnd : Z) (pairs' : seq (nat * nat)) :
  (0 <= k <= k')%Zs ->
  choose_pairs self profiles k' rnd = Ok pairs' ->
  choose_pairs self profiles k rnd = Ok (take (Z.to_nat k) pairs').
Proof.
move=> hk; rewrite /choose_pairs; case: (candidates_of _ _ _) => //= cs [<-].
by rewrite (select_pairs_take _ hk).
Qed.

Lemma choose_pairs_prefix_witness :
  choose_pairs (init cfg2) contexts_scenario 0%Zs 1%Zs = Ok (take (Z.to_nat 0) [:: (0, 2)%N]).
Proof.
apply: (@choose_pairs_prefix 2 (init cfg2) contexts_scenario 0%Zs 1%Zs 1%Zs) => //.
exact: scenario_choose_pairs.
Defined.

Section ShermanMorrison.

Variable d : nat.
Implicit Types (M : 'M[R]_d) (x y : 'cV[R]_d).

Lemma rank_one_inverse M y :
  M \in unitmx -> 1 + quad (invmx M) y != 0 ->
  (M + y *m y^T)
    *m (invmx M - (1 + quad (invmx M) y)^-1 *: (invmx M *m y *m y^T *m invmx M))
  = 1%:M.
Proof.
move=> hu hs; set B := invmx M; set q := quad B y.
have hq : y^T *m B *m y = q%:M by rewrite [LHS]mx11_scalar.
have e1 : M *m (B *m y *m y^T *m B) = y *m y^T *m B.
  by rewrite !mulmxA (mulmxV hu) mul1mx.
have e2 : y *m y^T *m (B *m y *m y^T *m B) = q *: (y *m y^T *m B).
  transitivity (y *m (y^T *m B *m y) *m (y^T *m B)); first by rewrite !mulmxA.
  by rewrite hq mul_mx_scalar -scalemxAl mulmxA.
rewrite mulmxBr mulmxDl (mulmxV hu) -scalemxAr mulmxDl e1 e2.
rewrite -[X in X + q *: _]scale1r -scalerDl scalerA mulVf // scale1r.
by rewrite addrK.
Qed.

End ShermanMorrison.

Section LearningStep.

Variable d : nat.
Implicit Types (M : 'M[R]_d) (x y z v : 'cV[R]_d).

Lemma quadZ (a : R) M v : quad (a *: M) v = a * quad M v.
Proof. by rewrite /quad -scalemxAr -scalemxAl mxE. Qed.

Lemma one_plus_quad_gt0 M y :
  symmetric M -> posdef M -> Rlt 0 (1 + quad (invmx M) y).
Proof. by move=> hs pd; move: (quad_inv_ge0 y hs pd); stdR; Lra.lra. Qed.

Lemma one_plus_quad_neq0 M y :
  symmetric M -> posdef M -> 1 + quad (invmx M) y != 0.
Proof.
move=> hs pd; apply/eqP => e.
by move: (quad_inv_ge0 y hs pd) e; stdR; Lra.lra.
Qed.

(* Sherman-Morrison: the inverse after a rank-one term is added. *)
Lemma inv_rank_one M y :
  symmetric M -> posdef M ->
  invmx (M + y *m y^T)
  = invmx M
    - (1 + quad (invmx M) y)^-1 *: ((invmx M *m y) *m (invmx M *m y)^T).
Proof.
move=> hs pd; have hu := posdef_unitmx pd.
have e := rank_one_inverse hu (one_plus_quad_neq0 y hs pd).
have [hN _] := mulmx1_unit e.
rewrite trmx_mul (symmetric_inv hs) !mulmxA.
by rewrite -[RHS](mulKmx hN) e mulmx1.
Qed.

Lemma quad_inv_rank_one M y z :
  symmetric M -> posdef M ->
  quad (invmx (M + y *m y^T)) z
  = quad (invmx M) z
    - (1 + quad (invmx M) y)^-1 * (dot (invmx M *m y) z * dot (invmx M *m y) z).
Proof. by move=> hs pd; rewrite inv_rank_one // quadD -scaleNr quadZ quad_outer mulNr. Qed.

Lemma quad_inv_rank_one_le M y z :
  symmetric M -> posdef M ->
  Rle (quad (invmx (M + y *m y^T)) z) (quad (invmx M) z).
Proof.
move=> hs pd; rewrite quad_inv_rank_one //.
have h1 := Rinv_0_lt_compat _ (one_plus_quad_gt0 y hs pd).
have h2 := Rle_0_sqr (dot (invmx M *m y) z).
have : Rle 0 ((1 + quad (invmx M) y)^-1
                * (dot (invmx M *m y) z * dot (invmx M *m y) z))%R.
  exact: (Rmult_le_pos _ _ (Rlt_le _ _ h1) h2).
by move: (_^-1 * _) => t; stdR; Lra.lra.
Qed.

End LearningStep.

Section EstimateStep.

Variable d : nat.
Implicit Types (M : 'M[R]_d) (x y z v u : 'cV[R]_d).

Lemma dotDl x y v : dot (x + y) v = dot x v + dot y v.
Proof. by rewrite /dot linearD /= mulmxDl mxE. Qed.

Lemma dotZl (a : R) x v : dot (a *: x) v = a * dot x v.
Proof. by rewrite /dot linearZ /= -scalemxAl mxE. Qed.

Lemma dotNl x v : dot (- x) v = - dot x v.
Proof. by rewrite -scaleN1r dotZl mulN1r. Qed.

Lemma dot_mulmx_sym M x v : symmetric M -> dot (M *m x) v = dot x (M *m v).
Proof. by move=> hs; rewrite /dot trmx_mul hs mulmxA. Qed.

Lemma quad_dot M v : quad M v = dot v (M *m v).
Proof. by rewrite /quad /dot mulmxA. Qed.

Lemma outer_mul u v : u *m u^T *m v = dot u v *: u.
Proof. by rewrite -mulmxA [u^T *m v]mx11_scalar mul_mx_scalar. Qed.

Lemma shrink_real (mu q r : R) :
  Rle 0 q ->
  (mu + r * q + - (/ (1 + q) * ((mu + r * q) * q))
   = mu + q * / (1 + q) * (r + - mu))%Re.
Proof.
move=> hq; have hc : (/ (1 + q) * (1 + q) = 1)%Re by apply: Rinv_l; Lra.lra.
move: hc; move: (/ (1 + q))%Re => c hc.
have -> : (mu + r * q + - (c * ((mu + r * q) * q))
           = mu + q * c * (r + - mu) + r * q * (1 - c * (1 + q)))%Re
  by real_ring.
by rewrite hc; real_ring.
Qed.

Lemma shrink_lemma (mu q r : R) :
  Rle 0 q ->
  mu + r * q - (1 + q)^-1 * ((mu + r * q) * q) = mu + q / (1 + q) * (r - mu).
Proof. exact: shrink_real. Qed.

Lemma estimate_rank_one M y (bv : 'cV[R]_d) (r : R) :
  symmetric M -> posdef M ->
  dot (invmx (M + y *m y^T) *m (bv + r *: y)) y
  = dot (invmx M *m bv) y
    + quad (invmx M) y / (1 + quad (invmx M) y) * (r - dot (invmx M *m bv) y).
Proof.
move=> hs pd; have hsB := symmetric_inv hs.
rewrite inv_rank_one // mulmxBl dotDl dotNl -scalemxAl dotZl outer_mul dotZl.
rewrite mulmxDr -scalemxAr dotDl dotZl.
rewrite [dot (invmx M *m y) (bv + _)]dotC dotDl dotZl.
rewrite -(dot_mulmx_sym _ _ hsB) -quad_dot.
have -> : dot (invmx M *m y) y = quad (invmx M) y by rewrite quad_dot dotC.
exact: shrink_lemma (quad_inv_ge0 y hs pd).
Qed.

End EstimateStep.

(** X22: in a state of a bandit configured with lam > 0, an update with a
    vector x of length d and reward r moves the estimated mean of x from
    its old value mu towards r by the fraction c^2 / (1 + c^2), where c is
    the confidence width of x before the update. *)
Theorem update_moves_estimate_toward_reward (d : nat) (self : LinUCB d)
    (x : seq R) (r : R) :
  reachable self -> size x = d ->
  exists (self' : LinUCB d) (theta : 'cV[R]_d) (A_inv : 'M[R]_d) (mu conf mu' : R),
    [/\ _theta self = Ok theta /\ linalg_inv (A self) = Ok A_inv,
        mu_of theta (column x) = Ok mu /\ conf_of A_inv (column x) = Ok conf,
        update self x r = Ok self',
        (_theta self' >>= fun theta' => mu_of theta' (column x)) = Ok mu'
      & mu' = mu + conf * conf / (1 + conf * conf) * (r - mu)].
Proof.
move=> hr hsz; have [hs pd _] := reachable_spd hr.
have hu := reachable_unitmx hr.
have hu' : A (updated self x r) \in unitmx.
  exact: reachable_unitmx (reach_update hr (update_ok self r hsz)).
exists (updated self x r), (invmx (A self) *m b self), (invmx (A self)).
exists (dot (invmx (A self) *m b self) (colv d x)).
exists (sqrt (quad (invmx (A self)) (colv d x))).
exists (dot (invmx (A (updated self x r)) *m b (updated self x r)) (colv d x)).
split.
- by rewrite /_theta /linalg_solve /linalg_inv hu.
- by rewrite mu_of_ok // conf_of_ok.
- exact: update_ok.
- by rewrite /_theta /linalg_solve hu' /= mu_of_ok.
- have -> : sqrt (quad (invmx (A self)) (colv d x))
            * sqrt (quad (invmx (A self)) (colv d x))
            = quad (invmx (A self)) (colv d x).
    by apply: sqrt_sqrt; apply: quad_inv_ge0.
  exact: estimate_rank_one.
Qed.

Lemma update_moves_estimate_toward_reward_witness :
  exists (self' : LinUCB 2) (theta : 'cV[R]_2) (A_inv : 'M[R]_2) (mu conf mu' : R),
    [/\ _theta (init cfg2) = Ok theta /\ linalg_inv (A (init cfg2)) = Ok A_inv,
        mu_of theta (column [:: 3%Re; 4%Re]) = Ok mu
        /\ conf_of A_inv (column [:: 3%Re; 4%Re]) = Ok conf,
        update (init cfg2) [:: 3%Re; 4%Re] 1 = Ok self',
        (_theta self' >>= fun theta' => mu_of theta' (column [:: 3%Re; 4%Re])) = Ok mu'
      & mu' = mu + conf * conf / (1 + conf * conf) * (1 - mu)].
Proof.
apply: (@update_moves_estimate_toward_reward 2 (init cfg2) [:: 3%Re; 4%Re] 1) => //.
by apply: reach_init; apply: Rlt_0_1.
Defined.

(** X23: when the stored A is symmetric and positive-definite, a
    successful update (with any vector and reward) never widens the
    confidence width sqrt(z^T A^-1 z) of any vector z of length d. Floats
    idealised as reals: the sum A + x x^T is taken exactly. *)
Theorem update_never_widens_confidence (d : nat) (self self' : LinUCB d)
    (x z : seq R) (r : R) :
  symmetric (A self) -> posdef (A self) ->
  update self x r = Ok self' -> size z = d ->
  exists (A_inv A_inv' : 'M[R]_d) (c c' : R),
    [/\ linalg_inv (A self) = Ok A_inv,
        linalg_inv (A self') = Ok A_inv',
        conf_of A_inv (column z) = Ok c,
        conf_of A_inv' (column z) = Ok c'
      & Rle c' c].
Proof.
move=> hs pd hup hsz; have hu := posdef_unitmx pd.
have [y ey] := update_rank_one hup.
have hu' : A self' \in unitmx by rewrite ey; apply: posdef_unitmx; apply: posdef_outer.
exists (invmx (A self)), (invmx (A self')).
exists (sqrt (quad (invmx (A self)) (colv d z))).
exists (sqrt (quad (invmx (A self')) (colv d z))).
split; rewrite /linalg_inv ?hu ?hu' ?conf_of_ok //.
by apply: sqrt_le_1_alt; rewrite ey; apply: quad_inv_rank_one_le.
Qed.

Lemma update_never_widens_confidence_witness :
  exists (A_inv A_inv' : 'M[R]_2) (c c' : R),
    [/\ linalg_inv (A (init cfg2)) = Ok A_inv,
        linalg_inv (A (updated (init cfg2) [:: 3%Re; 4%Re] 1)) = Ok A_inv',
        conf_of A_inv (column [:: 1%Re; 0%Re]) = Ok c,
        conf_of A_inv' (column [:: 1%Re; 0%Re]) = Ok c'
      & Rle c' c].
Proof.
apply: (@update_never_widens_confidence 2 (init cfg2) _ [:: 3%Re; 4%Re] _ 1) => //.
- exact: symmetric_scalar.
- by apply: posdef_scalar; apply: Rlt_0_1.
- exact: update_ok.
Defined.
Import SimulateCpm.

(* ===================================================================== *)
(*  The oracle matching of the simulation driver                         *)
(* ===================================================================== *)

Section Oracle.

Lemma greedy_loop_select (k : Z) (scores : seq candidate) (used : seq nat)
    (chosen : seq (nat * nat)) :
  (Z.of_nat (size chosen) < k)%Zs ->
  greedy_loop k scores used chosen = (foldl (select_step k) (chosen, used) scores).1.
Proof.
elim: scores used chosen => [|[[mu i] j] scores IH] used chosen //= hlt.
have -> : (Z.of_nat (size chosen) <? k)%Zs by apply/Z.ltb_lt.
rewrite andbT -negb_or; case: ifP => _ /=; first exact: IH.
case: Z.leb_spec => h; last by apply: IH; lia.
by rewrite select_loop_full.
Qed.

Lemma oracle_score_pair w_star contexts (s : seq (nat * nat)) cs :
  mapM (oracle_score w_star contexts) s = Ok cs -> map pair_of cs = s.
Proof.
elim: s cs => [|[i j] s IH] cs /=; first by case=> <-.
rewrite /oracle_score /=; case: (dot1 _ _) => //= mu.
by case e: (mapM _ _) => [cs'|] //= [<-] /=; rewrite (IH _ e).
Qed.

Lemma oracle_score_ok w_star contexts (s : seq (nat * nat)) :
  all (fun ij => size w_star == size (nth [::] contexts ij.1 ++ nth [::] contexts ij.2)) s ->
  is_ok (mapM (oracle_score w_star contexts) s).
Proof.
elim: s => [|ij s IH] //= /andP [h /IH].
by rewrite /oracle_score /dot1 h /=; case: (mapM _ _).
Qed.

Lemma greedy_top_select (scores : seq candidate) (k : Z) :
  (1 <= k)%Zs -> _greedy_disjoint_top scores k = select_pairs k scores.
Proof. by move=> hk; rewrite /_greedy_disjoint_top greedy_loop_select //=; lia. Qed.

End Oracle.

(** X12: for k_pairs >= 1 the greedy walk of the simulation's oracle,
    _greedy_disjoint_top, returns on every score list the pairs the
    selection loop of choose_pairs returns on it. *)
Theorem oracle_walk_is_bandit_walk (scores : seq candidate) (k_pairs : Z) :
  (1 <= k_pairs)%Zs ->
  _greedy_disjoint_top scores k_pairs = select_pairs k_pairs scores.
Proof. exact: greedy_top_select. Qed.

Lemma oracle_walk_is_bandit_walk_witness :
  _greedy_disjoint_top [:: (1%Re, 0%N, 1%N); (0%Re, 1%N, 2%N)] 2%Zs
  = select_pairs 2%Zs [:: (1%Re, 0%N, 1%N); (0%Re, 1%N, 2%N)].
Proof. by apply: oracle_walk_is_bandit_walk. Defined.

(** X13: with k_pairs <= 0 the two walks differ: _greedy_disjoint_top tests
    its budget only after appending, so on a non-empty score list it
    returns the pair of the first score, where the loop of choose_pairs
    returns no pair. *)
Theorem oracle_walk_ignores_zero_budget (c : candidate) (scores : seq candidate)
    (k_pairs : Z) :
  (k_pairs <= 0)%Zs ->
  _greedy_disjoint_top (c :: scores) k_pairs = [:: pair_of c]
  /\ select_pairs k_pairs (c :: scores) = [::].
Proof.
move=> hk; split.
  case: c => [[mu i] j]; rewrite /_greedy_disjoint_top /=.
  by case: Z.leb_spec => //; lia.
by rewrite /select_pairs select_loop_full //=; lia.
Qed.

Lemma oracle_walk_ignores_zero_budget_witness :
  _greedy_disjoint_top [:: (1%Re, 0%N, 1%N); (0%Re, 2%N, 3%N)] 0%Zs = [:: pair_of (1%Re, 0%N, 1%N)]
  /\ select_pairs 0%Zs [:: (1%Re, 0%N, 1%N); (0%Re, 2%N, 3%N)] = [::].
Proof. by apply: oracle_walk_ignores_zero_budget. Defined.

(** X14: when every pair of contexts concatenates to a vector as long as
    w_star and k_pairs >= 1, _oracle_pair_scores succeeds and the oracle
    matching drawn from it by _greedy_disjoint_top has exactly
    min(k_pairs, floor(n/2)) pairs, which share no participant. *)
Theorem oracle_matching_is_disjoint (w_star : seq R) (contexts : seq (seq R))
    (k_pairs : Z) :
  contexts_fit w_star contexts -> (1 <= k_pairs)%Zs ->
  exists scores,
    [/\ _oracle_pair_scores w_star contexts = Ok scores,
        sorted cand_ge scores,
        uniq (indices (_greedy_disjoint_top scores k_pairs))
      & Z.of_nat (size (_greedy_disjoint_top scores k_pairs))
        = Z.min k_pairs (Z.of_nat (size contexts %/ 2))].
Proof.
move=> hfit hk; rewrite /_oracle_pair_scores.
have := oracle_score_ok hfit; case e: (mapM _ _) => [cs|] //= _.
have hp := oracle_score_pair e.
have hr : all (in_range (size contexts)) (sort cand_ge cs).
  by rewrite all_sort; apply: in_range_candidates hp.
exists (sort cand_ge cs); rewrite greedy_top_select //; split=> //.
- by apply: sort_sorted; apply: cand_ge_total.
- by have [] := select_pairs_spec k_pairs hr.
- apply: select_pairs_count => //; first by lia.
  by move=> i j /(cover_candidates hp) [u hu]; exists u; rewrite mem_sort.
Qed.

Lemma oracle_matching_is_disjoint_witness :
  exists scores,
    [/\ _oracle_pair_scores [:: 1%Re; 1%Re] contexts_scenario = Ok scores,
        sorted cand_ge scores,
        uniq (indices (_greedy_disjoint_top scores 1%Zs))
      & Z.of_nat (size (_greedy_disjoint_top scores 1%Zs))
        = Z.min 1%Zs (Z.of_nat (size contexts_scenario %/ 2))].
Proof. by apply: (@oracle_matching_is_disjoint [:: 1%Re; 1%Re] contexts_scenario 1%Zs). Defined.

Lemma oracle_score_mismatch w_star contexts (s : seq (nat * nat)) :
  ~~ all (fun ij => size w_star == size (nth [::] contexts ij.1 ++ nth [::] contexts ij.2)) s ->
  mapM (oracle_score w_star contexts) s = Raise ValueError.
Proof.
elim: s => [|ij s IH] //=; rewrite /oracle_score /dot1.
by case: eqP => //= _ /IH ->.
Qed.

(** X15: _oracle_pair_scores raises the shape error exactly when some pair
    of contexts does not concatenate to a vector as long as w_star;
    otherwise it returns one score per pair i < j < n, the true mean
    w_star . x of the pair, the list being in descending order. *)
Theorem oracle_scores_outcome (w_star : seq R) (contexts : seq (seq R)) :
  if contexts_fit w_star contexts
  then exists scores,
         [/\ _oracle_pair_scores w_star contexts = Ok scores,
             perm_eq (map pair_of scores) (combinations2 (size contexts)),
             sorted cand_ge scores
           & forall c, c \in scores ->
               dot1 w_star (nth [::] contexts c.1.2 ++ nth [::] contexts c.2) = Ok c.1.1]
  else _oracle_pair_scores w_star contexts = Raise ValueError.
Proof.
rewrite /_oracle_pair_scores; case: ifP => [hfit | /negbT hfit]; last first.
  by rewrite oracle_score_mismatch.
have := oracle_score_ok hfit; case e: (mapM _ _) => [cs|] //= _.
exists (sort cand_ge cs); split=> //.
- by rewrite -(oracle_score_pair e) perm_map // perm_sort.
- by apply: sort_sorted; apply: cand_ge_total.
- move=> c; rewrite mem_sort => hc.
  have [[i j] _] := mapM_in e hc.
  by rewrite /oracle_score /=; case e1: (dot1 _ _) => [mu|] //= [<-].
Qed.

Section DriverRound.

Variable d : nat.
Implicit Type self : LinUCB d.

Lemma choose_pairs_ok_fit self (profiles : seq (seq R)) (k rnd : Z) pairs :
  choose_pairs self profiles k rnd = Ok pairs ->
  (A self \in unitmx) /\ profiles_fit d profiles.
Proof.
rewrite /choose_pairs.
have [hu | hu] := boolP (A self \in unitmx); last by rewrite candidates_of_singular.
have [hfit | hfit] := boolP (profiles_fit d profiles) => //.
by rewrite candidates_of_mismatch.
Qed.

Lemma run_updates_reachable self obs self' :
  reachable self -> run_updates self obs = Ok self' -> reachable self'.
Proof.
elim: obs self => [|[l r] obs IH] self hr /=; first by case=> <-.
case e: (update self l r) => [s1|] //=; apply: IH.
exact: reach_update hr e.
Qed.

End DriverRound.

(** X16: whatever rewards the driver observes, feeding update the
    concatenated contexts of the pairs choose_pairs has just returned, one
    pair after the other as run_sim does, never fails: each vector has
    length d, A gains the term x x^T of every selected pair, and a state of
    a bandit configured with lam > 0 stays one. *)
Theorem selected_pairs_update (d : nat) (self : LinUCB d) (contexts : seq (seq R))
    (k_pairs rnd : Z) (reward : nat * nat -> R) (lin_pairs : seq (nat * nat)) :
  choose_pairs self contexts k_pairs rnd = Ok lin_pairs ->
  exists self' : LinUCB d,
    [/\ run_updates self (round_observations contexts reward lin_pairs) = Ok self',
        all (fun o => size o.1 == d) (round_observations contexts reward lin_pairs),
        A self' = A self + \sum_(o <- round_observations contexts reward lin_pairs)
                             colv d o.1 *m (colv d o.1)^T
      & reachable self -> reachable self'].
Proof.
move=> e; have [hu /allP hfit] := choose_pairs_ok_fit e.
have hall : all (fun o => size o.1 == d) (round_observations contexts reward lin_pairs).
  rewrite /round_observations all_map; apply/allP => -[i j] hp /=.
  apply: (hfit (i, j)); rewrite mem_combinations2.
  by move/allP: (pairs_in_range e) => /(_ _ hp).
have ec := run_updates_closed self hall.
eexists; split; [exact: ec | exact: hall | by [] |].
by move=> hr; apply: run_updates_reachable hr ec.
Qed.

Lemma selected_pairs_update_witness :
  exists self' : LinUCB 2,
    [/\ run_updates (init cfg2) (round_observations contexts_scenario (fun=> 1%Re) [:: (0, 2)%N])
          = Ok self',
        all (fun o => size o.1 == 2%N)
            (round_observations contexts_scenario (fun=> 1%Re) [:: (0, 2)%N]),
        A self' = A (init cfg2)
                  + \sum_(o <- round_observations contexts_scenario (fun=> 1%Re) [:: (0, 2)%N])
                       colv 2 o.1 *m (colv 2 o.1)^T
      & reachable (init cfg2) -> reachable self'].
Proof.
apply: (@selected_pairs_update 2 (init cfg2) contexts_scenario 1%Zs 1%Zs (fun=> 1%Re)).
exact: scenario_choose_pairs.
Defined.

(* ===================================================================== *)
(*  Further properties of the split serializer                           *)
(* ===================================================================== *)



Section Identifiers.

Lemma prefixed_nonempty (p v : string) : prefixed p v != EmptyString.
Proof. by case: p. Qed.

Lemma first_id_nonempty (o : json_object) (p : string) (keys : seq string) (v : string) :
  first_id o p keys = Some v -> v != EmptyString.
Proof.
elim: keys => [|k keys IH] //=.
case: (obj_get o k) => [[s|z|flag|]|] //.
- by case: s => [|a s] // [<-].
- by case=> <-; apply: prefixed_nonempty.
- by case=> <-; apply: prefixed_nonempty.
Qed.

Lemma first_id_prefix (o : json_object) (p p' : string) (keys : seq string) :
  isSome (first_id o p keys) = isSome (first_id o p' keys).
Proof.
elim: keys => [|k keys IH] //=.
by case: (obj_get o k) => [[s|z|flag|]|] //; case: s.
Qed.

Lemma append_inj (p a c : string) : String.append p a = String.append p c -> a = c.
Proof. by elim: p => [|x p IH] //= [/IH]. Qed.

Lemma str_of_int_inj (z z' : Z) : str_of_int z = str_of_int z' -> z = z'.
Proof.
rewrite /str_of_int => e; apply: DecimalZ.to_int_inj.
have hn (y : Z) : Z.to_int y <> Decimal.Pos Decimal.Nil /\ Z.to_int y <> Decimal.Neg Decimal.Nil.
  by case: y => [|q|q] /=; split=> //; case=> /DecimalPos.Unsigned.to_uint_nonnil.
have [a1 a2] := hn z; have [c1 c2] := hn z'.
have := @NilZero.isi _ a1 a2; rewrite e (@NilZero.isi _ c1 c2).
by case.
Qed.

Lemma prefixed_inj (p : string) (i j : nat) :
  prefixed p (str_of_int (Z.of_nat i)) = prefixed p (str_of_int (Z.of_nat j)) -> i = j.
Proof.
rewrite /prefixed => /append_inj /= [] /str_of_int_inj.
exact: Nat2Z.inj.
Qed.

End Identifiers.

(** X17: _get_item_id never returns the empty string, whatever the object,
    the prefix and the index. *)
Theorem get_item_id_nonempty (o : json_object) (prefix : string) (idx : nat) :
  _get_item_id o prefix idx != EmptyString.
Proof.
rewrite /_get_item_id; case e: (first_id _ _ _) => [v|]; first exact: first_id_nonempty e.
exact: prefixed_nonempty.
Qed.

Section Combine.

Lemma tag_items_ids (p src : string) (items : seq json_object) (n : nat) :
  all unlabelled items ->
  [seq item_id x | x <- [seq Item (_get_item_id ix.2 p ix.1) src ix.2
                           | ix <- zip (iota n (size items)) items]]
  = [seq prefixed p (str_of_int (Z.of_nat i)) | i <- iota n (size items)].
Proof.
elim: items n => [|o items IH] n //= /andP [ho hitems]; rewrite IH //; congr (_ :: _).
rewrite /_get_item_id; move: ho; rewrite /unlabelled (first_id_prefix o _ p) /id_keys.
by case: (first_id _ _ _).
Qed.

Lemma tag_items_objs (p src : string) (items : seq json_object) (n : nat) :
  [seq item_obj x | x <- [seq Item (_get_item_id ix.2 p ix.1) src ix.2
                            | ix <- zip (iota n (size items)) items]]
  = items.
Proof. by elim: items n => [|o items IH] n //=; rewrite IH. Qed.

Lemma tag_items_src (p src : string) (items : seq json_object) :
  all (fun x => item_src x == src) (tag_items p src items).
Proof.
rewrite /tag_items; move: (iota _ _) => s.
by elim: items s => [|o items IH] [|i s] //=; rewrite eqxx IH.
Qed.

Lemma dedup_id (seen : seq string) (xs : seq item) :
  uniq [seq item_id x | x <- xs] ->
  all (fun k => k \notin seen) [seq item_id x | x <- xs] ->
  dedup seen xs = xs.
Proof.
elim: xs seen => [|x xs IH] seen //= /andP [hx hu] /andP [hs hall].
rewrite (negbTE hs) IH //; apply/allP => k hk; rewrite inE negb_or.
move/allP: hall => /(_ _ hk) ->; rewrite andbT.
by apply: contraNneq hx => <-.
Qed.

Lemma dedup_mem (seen : seq string) (xs : seq item) (k : string) :
  (k \in [seq item_id x | x <- dedup seen xs])
  = (k \in [seq item_id x | x <- xs]) && (k \notin seen).
Proof.
elim: xs seen => [|x xs IH] seen //=; case: ifP => [hx | /negbT hx].
  rewrite IH inE; case: eqP => [-> | _] //=.
  by rewrite hx andbF.
by rewrite /= !inE IH inE negb_or; case: eqP => [-> | _] //=; rewrite ?hx.
Qed.

Lemma dedup_subseq (seen : seq string) (xs : seq item) :
  subseq [seq item_id x | x <- dedup seen xs] [seq item_id x | x <- xs].
Proof.
elim: xs seen => [|x xs IH] seen //=; case: ifP => _ /=; last by rewrite eqxx.
by apply: subseq_trans (subseq_cons _ _).
Qed.

(* After a first list, the loop goes on with the identifiers kept so far. *)
Lemma dedup_cat (seen : seq string) (xs ys : seq item) :
  dedup seen (xs ++ ys)
  = dedup seen xs ++ dedup (rev [seq item_id x | x <- dedup seen xs] ++ seen) ys.
Proof.
elim: xs seen => [|x xs IH] seen //=; case: ifP => _ //=.
by rewrite IH rev_cons cat_rcons.
Qed.

Lemma dedup_keeps (P : pred (string * string)) (seen : seq string) (xs : seq item) :
  all P [seq id_src x | x <- xs] -> all P [seq id_src x | x <- dedup seen xs].
Proof.
elim: xs seen => [|x xs IH] seen //= /andP [hx hP]; case: ifP => _ /=; first exact: IH.
by rewrite hx IH.
Qed.

End Combine.

(** X18: items that carry none of the keys task_id, id and problem_id with a
    usable value are never dropped: _combine_with_ids returns every item of
    both lists, in order, under the generated identifiers he_0, he_1, ...
    and mbpp_0, mbpp_1, ... *)
Theorem unlabelled_items_are_kept (he_items mb_items : seq json_object) :
  all unlabelled he_items -> all unlabelled mb_items ->
  [seq item_obj x | x <- _combine_with_ids he_items mb_items] = he_items ++ mb_items
  /\ [seq item_id x | x <- _combine_with_ids he_items mb_items]
     = [seq prefixed "he" (str_of_int (Z.of_nat i)) | i <- iota 0 (size he_items)]
       ++ [seq prefixed "mbpp" (str_of_int (Z.of_nat i)) | i <- iota 0 (size mb_items)].
Proof.
move=> hhe hmb; rewrite /_combine_with_ids.
set tagged := _ ++ _.
have hids : [seq item_id x | x <- tagged]
    = [seq prefixed "he" (str_of_int (Z.of_nat i)) | i <- iota 0 (size he_items)]
      ++ [seq prefixed "mbpp" (str_of_int (Z.of_nat i)) | i <- iota 0 (size mb_items)].
  by rewrite /tagged map_cat /tag_items !tag_items_ids.
have hobjs : [seq item_obj x | x <- tagged] = he_items ++ mb_items.
  by rewrite /tagged map_cat /tag_items !tag_items_objs.
have hu : uniq [seq item_id x | x <- tagged].
  have injp p : injective (fun i : nat => prefixed p (str_of_int (Z.of_nat i))).
    by move=> i j; apply: prefixed_inj.
  rewrite hids cat_uniq !(map_inj_uniq (injp _)) !iota_uniq andbT /=.
  apply/hasPn => k /mapP [j _ ->].
  by apply/negP => /mapP [i _].
have hfresh : all (fun k => k \notin ([::] : seq string)) [seq item_id x | x <- tagged].
  by apply/allP.
by rewrite (dedup_id hu hfresh) hobjs hids.
Qed.

Lemma unlabelled_items_are_kept_witness :
  let he := [:: [:: ("prompt"%string, JString "a")]; [::]] in
  let mb := [:: [:: ("text"%string, JInt 3)]] in
  [seq item_obj x | x <- _combine_with_ids he mb] = he ++ mb
  /\ [seq item_id x | x <- _combine_with_ids he mb]
     = [seq prefixed "he" (str_of_int (Z.of_nat i)) | i <- iota 0 (size he)]
       ++ [seq prefixed "mbpp" (str_of_int (Z.of_nat i)) | i <- iota 0 (size mb)].
Proof. by move=> he mb; apply: (@unlabelled_items_are_kept he mb). Defined.

(** X19: the identifiers of the items _combine_with_ids returns are
    pairwise distinct, are exactly the identifiers of the tagged items, and
    keep their order; when a HumanEval item and an MBPP item share an
    identifier, the HumanEval item is the one kept. *)
Theorem combine_keeps_first_occurrence (he_items mb_items : seq json_object) :
  let tagged := tag_items "he" "HumanEval" he_items ++ tag_items "mbpp" "MBPP" mb_items in
  let out := _combine_with_ids he_items mb_items in
  [/\ uniq [seq item_id x | x <- out],
      [seq item_id x | x <- out] =i [seq item_id x | x <- tagged],
      subseq [seq item_id x | x <- out] [seq item_id x | x <- tagged]
    & forall k src, (k, src) \in [seq id_src x | x <- out] ->
        k \in [seq item_id x | x <- tag_items "he" "HumanEval" he_items] ->
        src = "HumanEval"%string].
Proof.
move=> tagged out; split.
- exact: combine_ids_uniq.
- by move=> k; rewrite /out /_combine_with_ids dedup_mem andbT.
- exact: dedup_subseq.
move=> k src; rewrite /out /_combine_with_ids dedup_cat map_cat mem_cat.
case/orP => [hin _ | hin hk].
  have hsrc : all (fun p : string * string => p.2 == "HumanEval"%string)
                 [seq id_src x | x <- dedup [::] (tag_items "he" "HumanEval" he_items)].
    apply: dedup_keeps; rewrite all_map.
    by apply: sub_all (tag_items_src "he" "HumanEval" he_items).
  by apply/eqP; move/allP: hsrc => /(_ _ hin).
have : k \in [seq item_id x | x <- dedup (rev [seq item_id x | x <- dedup [::] (tag_items "he" "HumanEval" he_items)] ++ [::])
                                    (tag_items "mbpp" "MBPP" mb_items)].
  have e l : [seq item_id x | x <- l] = [seq p.1 | p <- [seq id_src x | x <- l]].
    by elim: l => //= x l ->.
  by rewrite e; apply: (map_f (fun p : string * string => p.1) hin).
by rewrite dedup_mem cats0 mem_rev dedup_mem hk andbF.
Qed.

Section MoreAlloc.

Lemma alloc_loop_cursor (pool : seq string) (quota : client -> Z) (roster : seq client)
    (m : dict (seq string)) (cursor : Z) :
  (foldl (alloc_step pool quota) (m, cursor) roster).2
  = (cursor + sumz [seq quota c | c <- roster])%Zs.
Proof.
elim: roster m cursor => [|c r IH] m cursor /=; first by rewrite Z.add_0_r.
by rewrite IH; lia.
Qed.

Lemma dict_get_set (V : Type) (m : dict V) (k k' : string) (v : V) :
  dict_get (dict_set m k v) k' = if k == k' then Some v else dict_get m k'.
Proof.
rewrite /dict_get; elim: m => [|[k0 v0] m IH] /=; first by case: ifP.
case: (eqVneq k0 k) => [-> | hk0] /=; first by case: ifP.
case: (eqVneq k0 k') => [e | _] //=.
by move: hk0; rewrite e eq_sym => /negbTE ->.
Qed.

Lemma alloc_loop_other (pool : seq string) (quota : client -> Z) (roster : seq client)
    (m : dict (seq string)) (cursor : Z) (k : string) :
  k \notin [seq client_id c | c <- roster] ->
  dict_get (foldl (alloc_step pool quota) (m, cursor) roster).1 k = dict_get m k.
Proof.
elim: roster m cursor => [|c r IH] m cursor //=.
rewrite inE negb_or eq_sym => /andP [/negbTE hk hr].
by rewrite IH // dict_get_set hk.
Qed.

(* The slice a client ends up with: the one cut at its last entry. *)
Lemma alloc_loop_last (pool : seq string) (quota : client -> Z) (r1 r2 : seq client)
    (c : client) (m : dict (seq string)) (cursor : Z) :
  client_id c \notin [seq client_id c' | c' <- r2] ->
  dict_get (foldl (alloc_step pool quota) (m, cursor) (r1 ++ c :: r2)).1 (client_id c)
  = Some (py_slice pool (cursor + sumz [seq quota c' | c' <- r1])
                        (cursor + sumz [seq quota c' | c' <- r1] + quota c)).
Proof.
move=> hc; rewrite foldl_cat /=.
have := alloc_loop_cursor pool quota r1 m cursor.
case: (foldl _ _ r1) => m1 cur1 /= ->.
by rewrite alloc_loop_other // dict_get_set eqxx.
Qed.

Variable shuffle : Z -> seq string -> seq string.
Hypothesis shuffle_perm : forall seed l, perm_eq (shuffle seed l) l.

Lemma alloc_splits_unfold (combined_ids : seq string) (roster : seq client)
    (seed global_test_size : Z) :
  let pool := shuffle seed combined_ids in
  let total := (sumz [seq train_samples c | c <- roster]
                + sumz [seq val_samples c | c <- roster] + global_test_size)%Zs in
  _alloc_splits shuffle combined_ids roster seed global_test_size
  = if (Z.of_nat (size combined_ids) <? total)%Zs then Raise RuntimeError
    else
      let tr := foldl (alloc_step pool train_samples) ([::], 0%Zs) roster in
      let va := foldl (alloc_step pool val_samples) ([::], tr.2) roster in
      Ok (tr.1, va.1, py_slice pool va.2 (va.2 + global_test_size)).
Proof.
move=> pool total; rewrite /_alloc_splits -/pool (perm_size (shuffle_perm seed combined_ids)).
case: ifP => // _.
by case: (foldl _ _ roster) => a c /=; case: (foldl _ _ roster).
Qed.

(** X20: when two or more roster entries carry the same client id, the later
    entry overwrites the earlier one: the train (val) set returned for a
    client id is the slice cut at the last entry with that id, the cursor
    having moved past the quotas of all entries before it, overwritten ones
    included. *)
Theorem alloc_splits_last_entry_wins (combined_ids : seq string) (r1 r2 : seq client)
    (c : client) (seed global_test_size : Z) :
  let roster := r1 ++ c :: r2 in
  let pool := shuffle seed combined_ids in
  (sumz [seq train_samples c' | c' <- roster] + sumz [seq val_samples c' | c' <- roster]
     + global_test_size <= Z.of_nat (size combined_ids))%Zs ->
  client_id c \notin [seq client_id c' | c' <- r2] ->
  exists (train val : dict (seq string)) (test : seq string),
    [/\ _alloc_splits shuffle combined_ids roster seed global_test_size
          = Ok (train, val, test),
        dict_get train (client_id c)
          = Some (py_slice pool (sumz [seq train_samples c' | c' <- r1])
                    (sumz [seq train_samples c' | c' <- r1] + train_samples c))
      & dict_get val (client_id c)
          = Some (py_slice pool
                    (sumz [seq train_samples c' | c' <- roster]
                     + sumz [seq val_samples c' | c' <- r1])
                    (sumz [seq train_samples c' | c' <- roster]
                     + sumz [seq val_samples c' | c' <- r1] + val_samples c))].
Proof.
move=> roster pool htotal hc; rewrite alloc_splits_unfold /=.
rewrite (proj2 (Z.ltb_ge _ _) htotal).
do 3!eexists; split; first by [].
  by rewrite alloc_loop_last.
by rewrite alloc_loop_cursor alloc_loop_last.
Qed.

End MoreAlloc.

Lemma alloc_splits_last_entry_wins_witness :
  let ids := [:: "a"; "b"; "c"; "d"]%string in
  let c := Client "c1" 2 0 in
  let roster := [:: Client "c1" 1 1] ++ c :: [::] in
  exists (train val : dict (seq string)) (test : seq string),
    [/\ _alloc_splits (fun _ l => rev l) ids roster 7%Zs 0%Zs = Ok (train, val, test),
        dict_get train (client_id c)
          = Some (py_slice (rev ids) (sumz [seq train_samples c' | c' <- [:: Client "c1" 1 1]])
                    (sumz [seq train_samples c' | c' <- [:: Client "c1" 1 1]] + train_samples c))
      & dict_get val (client_id c)
          = Some (py_slice (rev ids)
                    (sumz [seq train_samples c' | c' <- roster]
                     + sumz [seq val_samples c' | c' <- [:: Client "c1" 1 1]])
                    (sumz [seq train_samples c' | c' <- roster]
                     + sumz [seq val_samples c' | c' <- [:: Client "c1" 1 1]] + val_samples c))].
Proof.
move=> ids c roster.
apply: (@alloc_splits_last_entry_wins (fun _ l => rev l) _ ids [:: Client "c1" 1 1] [::] c 7%Zs 0%Zs) => //.
by move=> seed l; rewrite perm_rev.
Defined.

Section Consecutive.

Variable shuffle : Z -> seq string -> seq string.
Hypothesis shuffle_perm : forall seed l, perm_eq (shuffle seed l) l.

(** X21: for a roster with distinct client ids and non-negative quotas and a
    pool that is large enough, the split is cut from the front of the
    shuffled pool without gaps: the train sets, in roster order, are its
    first a identifiers, the val sets the next b, the test set the g after
    those (a, b the sums of the quotas, g the test size); what follows in
    the pool is handed to nobody. *)
Theorem alloc_splits_are_consecutive (combined_ids : seq string) (roster : seq client)
    (seed global_test_size : Z) :
  uniq [seq client_id c | c <- roster] ->
  all (fun c => 0 <=? train_samples c)%Zs roster ->
  all (fun c => 0 <=? val_samples c)%Zs roster ->
  (0 <= global_test_size)%Zs ->
  (sumz [seq train_samples c | c <- roster] + sumz [seq val_samples c | c <- roster]
     + global_test_size <= Z.of_nat (size combined_ids))%Zs ->
  let pool := shuffle seed combined_ids in
  let a := Z.to_nat (sumz [seq train_samples c | c <- roster]) in
  let b := Z.to_nat (sumz [seq val_samples c | c <- roster]) in
  let g := Z.to_nat global_test_size in
  exists (train val : dict (seq string)) (test : seq string),
    [/\ _alloc_splits shuffle combined_ids roster seed global_test_size
          = Ok (train, val, test),
        flatten [seq kv.2 | kv <- train] = take a pool,
        flatten [seq kv.2 | kv <- val] = take b (drop a pool)
      & test = take g (drop (a + b) pool)].
Proof.
move=> hroster htrain hval hg htotal pool a b g.
have hsize : size pool = size combined_ids by apply: perm_size; apply: shuffle_perm.
set qt := nat_quotas train_samples roster; set qv := nat_quotas val_samples roster.
have ha : a = sumn qt by rewrite /a sumz_nat // Nat2Z.id.
have hb : b = sumn qv by rewrite /b sumz_nat // Nat2Z.id.
have hgE : global_test_size = Z.of_nat g by rewrite Z2Nat.id.
have hsum : (sumn qt + sumn qv + g <= size pool)%N.
  apply/leP; move: htotal; rewrite !sumz_nat // hsize hgE -/qt -/qv -!plusE.
  by lia.
have ht : (0 + sumn qt <= size pool)%N.
  by rewrite add0n; apply: leq_trans hsum; rewrite -addnA leq_addr.
have hv : (sumn qt + sumn qv <= size pool)%N by apply: leq_trans hsum; rewrite leq_addr.
have all0 : all (fun c => client_id c \notin [seq kv.1 | kv <- ([::] : dict (seq string))]) roster.
  by elim: (roster).
exists (zip [seq client_id c | c <- roster] (chunks pool 0 qt)).
exists (zip [seq client_id c | c <- roster] (chunks pool (sumn qt) qv)).
exists (take g (drop (sumn qt + sumn qv) pool)).
split.
- rewrite /_alloc_splits -/pool !sumz_nat // -/qt -/qv.
  case: Z.ltb_spec => [hlt|_].
    by move/leP: hsum; rewrite hgE -!plusE in hlt *; lia.
  rewrite (alloc_loop (s := 0) hroster all0 htrain ht) /= add0n.
  rewrite (alloc_loop hroster all0 hval hv) /=.
  by rewrite hgE py_slice_nat.
- by rewrite values_zip ?size_chunks_eq ?size_map // flatten_chunks drop0 ha.
- by rewrite values_zip ?size_chunks_eq ?size_map // flatten_chunks ha hb.
- by rewrite ha hb.
Qed.

End Consecutive.

Lemma alloc_splits_are_consecutive_witness :
  let ids := [:: "a"; "b"; "c"; "d"; "e"]%string in
  let roster := [:: Client "c1" 1 1; Client "c2" 2 0] in
  let pool := rev ids in
  let a := Z.to_nat (sumz [seq train_samples c | c <- roster]) in
  let b := Z.to_nat (sumz [seq val_samples c | c <- roster]) in
  let g := Z.to_nat 1%Zs in
  exists (train val : dict (seq string)) (test : seq string),
    [/\ _alloc_splits (fun _ l => rev l) ids roster 42%Zs 1%Zs = Ok (train, val, test),
        flatten [seq kv.2 | kv <- train] = take a pool,
        flatten [seq kv.2 | kv <- val] = take b (drop a pool)
      & test = take g (drop (a + b) pool)].
Proof.
move=> ids roster.
apply: (@alloc_splits_are_consecutive (fun _ l => rev l) _ ids roster 42%Zs 1%Zs) => //.
by move=> seed l; rewrite perm_rev.
Defined.

(* --------------------------------------------------------------------- *)
(*  The float32 state: shapes and symmetry                               *)
(* --------------------------------------------------------------------- *)

Section Float32State.

Implicit Types (s : Float32.LinUCB) (x : seq SpecFloat.spec_float).

Lemma float32_mulC (u v : SpecFloat.spec_float) : Float32.mul u v = Float32.mul v u.
Proof.
rewrite /Float32.mul; case: u => [su|su||su mu eu]; case: v => [sv|sv||sv mv ev] //=;
  rewrite ?[xorb sv su]Bool.xorb_comm //.
by rewrite Pos.mul_comm Z.add_comm.
Qed.

Lemma float32_entry_add d0 (M a : seq (seq SpecFloat.spec_float)) (i j : nat) :
  size M = d0 -> all (fun row => size row == d0) M ->
  size a = d0 -> all (fun row => size row == d0) a ->
  (i < d0)%N -> (j < d0)%N ->
  Float32.entry
    [seq [seq Float32.add mp.1 mp.2 | mp <- zip rows.1 rows.2] | rows <- zip M a] i j
  = Float32.add (Float32.entry M i j) (Float32.entry a i j).
Proof.
move=> hM hrM ha hra hi hj; rewrite /Float32.entry.
have hMi : size (nth [::] M i) = d0.
  by apply/eqP; move/all_nthP: hrM; apply; rewrite hM.
have hai : size (nth [::] a i) = d0.
  by apply/eqP; move/all_nthP: hra; apply; rewrite ha.
rewrite (nth_map ([::], [::])) ?size_zip ?hM ?ha ?minnn //.
rewrite nth_zip ?hM ?ha //=.
rewrite (nth_map (Float32.zero, Float32.zero)) ?size_zip ?hMi ?hai ?minnn //.
by rewrite nth_zip ?hMi ?hai.
Qed.

Lemma float32_entry_outer x (i j : nat) :
  (i < size x)%N -> (j < size x)%N ->
  Float32.entry [seq [seq Float32.mul xi xj | xj <- x] | xi <- x] i j
  = Float32.mul (nth Float32.zero x i) (nth Float32.zero x j).
Proof.
move=> hi hj; rewrite /Float32.entry (nth_map Float32.zero) //.
by rewrite (nth_map Float32.zero).
Qed.

Lemma float32_entry_stretch (M : seq (seq SpecFloat.spec_float)) d0
    (c : SpecFloat.spec_float) (i j : nat) :
  size M = d0 -> all (fun row => size row == d0) M ->
  (i < d0)%N -> (j < d0)%N ->
  Float32.entry [seq [seq Float32.add m c | m <- row] | row <- M] i j
  = Float32.add (Float32.entry M i j) c.
Proof.
move=> hM hrM hi hj; rewrite /Float32.entry.
have hMi : size (nth [::] M i) = d0.
  by apply/eqP; move/all_nthP: hrM; apply; rewrite hM.
by rewrite (nth_map [::]) ?hM // (nth_map Float32.zero) ?hMi.
Qed.

Lemma float32_init_shaped d0 lam0 beta : Float32.shaped (Float32.init d0 lam0 beta).
Proof.
rewrite /Float32.shaped /= !size_map size_iota size_nseq !eqxx /= andbT.
apply/(all_nthP [::]) => i; rewrite !size_map size_iota => hi.
rewrite /Float32.eye (nth_map [::]) ?size_map ?size_iota //.
by rewrite (nth_map 0%N) ?size_iota // size_map size_iota.
Qed.

Lemma float32_init_symmetric d0 lam0 beta : Float32.symmetric (Float32.init d0 lam0 beta).
Proof.
move=> i j /= hi hj; rewrite /Float32.entry /Float32.eye.
rewrite !(nth_map [::]) ?size_map ?size_iota //.
rewrite !(nth_map 0%N) ?size_iota //.
rewrite !(nth_map Float32.zero) ?size_map ?size_iota //.
by rewrite !(nth_map 0%N) ?size_iota // !nth_iota // eq_sym.
Qed.

Lemma float32_update_shaped s x r :
  Float32.shaped s -> size x = Float32.d s ->
  exists2 s', Float32.update s x r = Ok s' & Float32.shaped s'.
Proof.
case/and3P => /eqP hA hrA /eqP hb hx.
rewrite /Float32.update /Float32.iadd_matrix /Float32.iadd_column !size_map hx eqxx /=.
eexists; first by [].
rewrite /Float32.shaped /= !size_map !size_zip !size_map hA hb hx !minnn !eqxx /= andbT.
apply/(all_nthP [::]) => i; rewrite size_map size_zip size_map hA hx minnn => hi.
rewrite (nth_map ([::], [::])) ?size_zip ?size_map ?hA ?hx ?minnn //.
rewrite nth_zip ?size_map ?hA ?hx //= size_zip.
have -> : size (nth [::] (Float32.A s) i) = Float32.d s.
  by apply/eqP; move/all_nthP: hrA; apply; rewrite hA.
by rewrite (nth_map Float32.zero) ?hx // size_map hx minnn.
Qed.

End Float32State.

Section Float32Symmetry.

Implicit Types (s : Float32.LinUCB) (x : seq SpecFloat.spec_float).

Lemma float32_update_dim s x r s' :
  Float32.update s x r = Ok s' -> Float32.d s' = Float32.d s.
Proof.
rewrite /Float32.update; case: (Float32.iadd_matrix _ _ _) => //= A'.
by case: (Float32.iadd_column _ _ _) => //= b' [<-].
Qed.

Lemma float32_update_entry s x r s' (i j : nat) :
  Float32.shaped s -> size x = Float32.d s ->
  Float32.update s x r = Ok s' ->
  (i < Float32.d s)%N -> (j < Float32.d s)%N ->
  Float32.entry (Float32.A s') i j
  = Float32.add (Float32.entry (Float32.A s) i j)
      (Float32.mul (nth Float32.zero x i) (nth Float32.zero x j)).
Proof.
case/and3P => /eqP hA hrA /eqP hb hx.
rewrite /Float32.update /Float32.iadd_matrix /Float32.iadd_column !size_map hx eqxx /=.
case=> <- /= hi hj.
set xxT := [seq [seq Float32.mul xi xj | xj <- x] | xi <- x].
have ha : size xxT = Float32.d s by rewrite size_map.
have hra : all (fun row => size row == Float32.d s) xxT.
  apply/(all_nthP [::]) => k; rewrite size_map hx => hk.
  by rewrite (nth_map Float32.zero) ?hx // size_map hx.
rewrite (float32_entry_add hA hrA ha hra hi hj).
by rewrite float32_entry_outer ?hx.
Qed.

Lemma float32_update_symmetric s x r s' :
  Float32.shaped s -> Float32.symmetric s -> size x = Float32.d s ->
  Float32.update s x r = Ok s' -> Float32.symmetric s'.
Proof.
move=> hsh hsym hx hup i j; rewrite (float32_update_dim hup) => hi hj.
rewrite (float32_update_entry hsh hx hup hi hj).
rewrite (float32_update_entry hsh hx hup hj hi).
by rewrite hsym // float32_mulC.
Qed.

Lemma float32_run_updates d0 s (obs : seq (seq SpecFloat.spec_float * SpecFloat.spec_float)) :
  Float32.d s = d0 -> Float32.shaped s -> Float32.symmetric s ->
  all (fun o => size o.1 == d0) obs ->
  exists s', [/\ Float32.run_updates s obs = Ok s', Float32.d s' = d0,
                 Float32.shaped s' & Float32.symmetric s'].
Proof.
elim: obs s => [|[x r] obs IH] s hd hsh hsym /=; first by exists s.
case/andP => /eqP hx hobs; rewrite -hd in hx.
have [s1 e1 hsh1] := float32_update_shaped r hsh hx.
have hsym1 := float32_update_symmetric hsh hsym hx e1.
have hd1 : Float32.d s1 = d0 by rewrite (float32_update_dim e1).
by rewrite e1 /=; apply: IH.
Qed.

End Float32Symmetry.

(** X5: in float32, as the code stores it, A stays exactly symmetric: for
    every lam and every finite sequence of update calls with vectors of
    length d, every call succeeds, the arrays keep their shapes and
    A[i, j] and A[j, i] are the same float, rounding included. *)
Theorem float32_updates_keep_symmetry (d0 : nat) (lam0 beta : SpecFloat.spec_float)
    (obs : seq (seq SpecFloat.spec_float * SpecFloat.spec_float)) :
  all (fun o => size o.1 == d0) obs ->
  exists s : Float32.LinUCB,
    [/\ Float32.run_updates (Float32.init d0 lam0 beta) obs = Ok s,
        Float32.shaped s
      & forall i j, (i < d0)%N -> (j < d0)%N ->
          Float32.entry (Float32.A s) i j = Float32.entry (Float32.A s) j i].
Proof.
move=> hobs.
have hd0 : Float32.d (Float32.init d0 lam0 beta) = d0 by [].
have [s [e hd hsh hsym]] :=
  float32_run_updates hd0 (float32_init_shaped d0 lam0 beta)
    (@float32_init_symmetric d0 lam0 beta) hobs.
by exists s; split=> // i j hi hj; apply: hsym; rewrite hd.
Qed.

Lemma float32_updates_keep_symmetry_witness :
  exists s : Float32.LinUCB,
    [/\ Float32.run_updates (Float32.init 2 (Float32.of_Z 1) (Float32.of_Z 1))
          [:: ([:: Float32.of_Z 10000; Float32.of_Z 3], Float32.of_Z 2);
              ([:: Float32.of_Z 1; Float32.of_Z 4096], Float32.of_Z 1)] = Ok s,
        Float32.shaped s
      & forall i j, (i < 2)%N -> (j < 2)%N ->
          Float32.entry (Float32.A s) i j = Float32.entry (Float32.A s) j i].
Proof. by apply: float32_updates_keep_symmetry. Defined.
